(** * MATH565 course codes: the statistical estimation core

    A shallow embedding of the three routines that the course notebooks
    share, [meanMC_CLT], [binomialCI] and [quantileCI], together with the
    properties of them that the specification states.

    Numbers.  NumPy's [float64] is idealised: a finite float is a real
    number, and the non-finite floats ([inf], [-inf], [nan]) are separate
    values, because the code reaches them (a division by a zero tolerance,
    a quantile of an invalid probability) and then converts them to an
    integer.  Rounding error is not modelled; where an outcome depends
    on the side of a threshold on which a float falls, or on a whole
    number being held exactly, the statement says so in a hypothesis
    ([float_margin], [FLOAT_EXACT]).  Python and NumPy integers are [Z];
    the 64-bit conversions are written out.

    Randomness.  A sampling function consumes a generator state and
    returns the next one, so that two successive draws are distinguished.

    SciPy.  [stats.norm.ppf] and [optimize.fsolve] are libraries outside
    the repository: they are the two fields of the interface [SciPy].
    Of the solver two facts are used, each named where a statement needs
    it: it stays at its seed when the function has no value beyond the
    seed, and it never moves to a point where the function has no value
    or a residual that is not smaller.  [stats.binom.cdf] and
    [stats.binom.ppf] are given by their mathematical definitions, with
    [nan] outside the arguments that SciPy accepts.

    Notebooks.  The code that calls the three routines is embedded as
    well: the travel-time example ([Ttot] and the cells that bracket the
    probability of being late and the cut-off time), the election
    simulation [TwoBestWin], the digital option payoffs [Y] and [YIS], and
    the European call payoff [euroCallPayoff].  [np.random.rand] and
    [np.random.randn] consume and return a generator state, like a
    sampling function. *)

From Stdlib Require Import Reals Lra Lia ZArith List Psatz Bool.
From Stdlib Require Import ClassicalEpsilon.
From Stdlib Require Import Sorting.Sorted Sorting.Permutation.
Import ListNotations.

Open Scope R_scope.

(** ** Python exceptions and results *)

Inductive exn : Type :=
| ZeroDivisionError
| OverflowError
| IndexError.

Inductive result (A : Type) : Type :=
| Ok (a : A)
| Raise (e : exn).

Arguments Ok {A} a.
Arguments Raise {A} e.

Definition bind {A B : Type} (m : result A) (k : A -> result B) : result B :=
  match m with
  | Ok a => k a
  | Raise e => Raise e
  end.

Notation "x <- m ;; k" := (bind m (fun x => k))
  (at level 61, m at next level, right associativity).

(** The least magnitude that rounds to a float64 beyond the largest
    finite one. *)
Definition FLOAT_OVERFLOW : Z := (2 ^ 1024 - 2 ^ 970)%Z.

(** [a / b] on two Python integers: the correctly rounded quotient, an
    error for a zero divisor and for a quotient too large for a float. *)
Definition py_truediv (a b : Z) : result R :=
  if (b =? 0)%Z then Raise ZeroDivisionError
  else if Rle_dec (IZR FLOAT_OVERFLOW) (Rabs (IZR a / IZR b))
       then Raise OverflowError
       else Ok (IZR a / IZR b).

(** ** Floats and integer conversion *)

Inductive float64 : Type :=
| Fin (r : R)
| PInf
| NInf
| NaN.

(** [x / y] where [x] is a NumPy float: a zero divisor gives a non-finite
    value (and a warning), never an exception. *)
Definition np_div (x y : R) : float64 :=
  if Req_dec_T y 0 then
    if Rlt_dec 0 x then PInf else if Rlt_dec x 0 then NInf else NaN
  else Fin (x / y).

Definition np_ceil (x : float64) : float64 :=
  match x with
  | Fin r => Fin (IZR (Zceil r))
  | other => other
  end.

(** [np.power(x, 2)].  The square of a whole number is exact in float64
    as long as it is at most [2^53]; beyond that [np.power] rounds, which
    is not modelled. *)
Definition np_power2 (x : float64) : float64 :=
  match x with
  | Fin r => Fin (r ^ 2)
  | PInf | NInf => PInf
  | NaN => NaN
  end.

(** [c + x] for an integer constant [c] and a float [x]. *)
Definition np_add_int (c : Z) (x : float64) : float64 :=
  match x with
  | Fin r => Fin (IZR c + r)
  | other => other
  end.

Definition INT64_MIN : Z := (- 2 ^ 63)%Z.
Definition INT64_MAX : Z := (2 ^ 63 - 1)%Z.

(** Every whole number up to [2^53] in magnitude is a float64. *)
Definition FLOAT_EXACT : Z := (2 ^ 53)%Z.

(** Rounding toward zero. *)
Definition Ztrunc (r : R) : Z :=
  if Rle_dec 0 r then Zfloor r else Zceil r.

(** [x.astype(int)]: truncation; a value that has no 64-bit image (a
    non-finite float, or one out of range) converts, on x86-64, to the
    "integer indefinite" value [INT64_MIN], with a warning. *)
Definition astype_int (x : float64) : Z :=
  match x with
  | Fin r =>
      let t := Ztrunc r in
      if ((INT64_MIN <=? t) && (t <=? INT64_MAX))%Z then t else INT64_MIN
  | _ => INT64_MIN
  end.

(** Addition of 64-bit integers wraps around. *)
Definition wrap64 (z : Z) : Z := ((z + 2 ^ 63) mod 2 ^ 64 - 2 ^ 63)%Z.

(** ** Sample statistics *)

Definition Rsum (l : list R) : R := fold_right Rplus 0 l.

(** [np.mean]. *)
Definition np_mean (l : list R) : R := Rsum l / INR (length l).

(** [np.std(l, ddof = ddof)]. *)
Definition np_std (l : list R) (ddof : nat) : R :=
  let m := np_mean l in
  sqrt (Rsum (map (fun y => (y - m) * (y - m)) l)
        / (INR (length l) - INR ddof)).

(** ** The SciPy interface *)

Class SciPy : Type := {
  (** [stats.norm.ppf]: the standard normal quantile function. *)
  norm_ppf : R -> R;
  (** [optimize.fsolve f x0]: where the search for a root of [f] from
      [x0] stops.  The function may have no value ([nan]) at a point. *)
  fsolve : (R -> float64) -> R -> R
}.

(** Binomial coefficients, by Pascal's rule. *)
Fixpoint binom (n k : nat) : nat :=
  match n, k with
  | _, O => 1
  | O, S _ => 0
  | S n', S k' => binom n' k' + binom n' k
  end.

Definition binom_pmf (n i : nat) (p : R) : R :=
  INR (binom n i) * p ^ i * (1 - p) ^ (n - i).

(** [stats.binom.cdf(k, n, p)]. *)
Definition binom_cdf (k n : Z) (p : R) : R :=
  if (k <? 0)%Z then 0
  else sum_f_R0 (fun i => binom_pmf (Z.to_nat n) i p) (Z.to_nat k).

(** The least [k' >= k] with [q <= cdf k'], looking at most [fuel] steps
    ahead. *)
Fixpoint ppf_search (q : R) (n : Z) (p : R) (fuel k : nat) : nat :=
  match fuel with
  | O => k
  | S fuel' =>
      if Rle_dec q (binom_cdf (Z.of_nat k) n p) then k
      else ppf_search q n p fuel' (S k)
  end.

(** The arguments [n], [p] that [binom] accepts. *)
Definition binom_argcheck (n : Z) (p : R) : bool :=
  (0 <=? n)%Z &&
  (if Rle_dec 0 p then true else false) &&
  (if Rle_dec p 1 then true else false).

(** [stats.binom.ppf(q, n, p)]: [-1] at [q = 0], [n] at [q = 1], the least
    [k] with [cdf k >= q] inside, and [nan] for any other argument. *)
Definition binom_ppf (q : R) (n : Z) (p : R) : float64 :=
  if Req_dec_T q 0 then Fin (-1)
  else if binom_argcheck n p then
    if Req_dec_T q 1 then Fin (IZR n)
    else if Rlt_dec 0 q then
      if Rlt_dec q 1 then Fin (INR (ppf_search q n p (Z.to_nat n) 0))
      else NaN
    else NaN
  else NaN.

(** ** Arrays *)

Definition np_zeros (n : nat) : list R := repeat 0 n.

(** [a[i] = v] for [0 <= i < len a]. *)
Definition setitem (a : list R) (i : nat) (v : R) : list R :=
  firstn i a ++ v :: skipn (S i) a.

(** [a[i:j] = vs]. *)
Definition setslice (a : list R) (i j : nat) (vs : list R) : list R :=
  firstn i a ++ vs ++ skipn j a.

(** [a[i]]: a negative index counts from the end; an index outside
    [-len, len) raises. *)
Definition getitem (a : list R) (i : Z) : result R :=
  let len := Z.of_nat (length a) in
  if ((0 <=? i) && (i <? len))%Z then Ok (nth (Z.to_nat i) a 0)
  else if ((- len <=? i) && (i <? 0))%Z then Ok (nth (Z.to_nat (len + i)) a 0)
  else Raise IndexError.

(** [sorted], on real numbers (no [nan] among them): ascending. *)
Fixpoint insert_sorted (x : R) (l : list R) : list R :=
  match l with
  | [] => [x]
  | y :: l' => if Rle_dec x y then x :: l else y :: insert_sorted x l'
  end.

Definition sorted (l : list R) : list R := fold_right insert_sorted [] l.

(** ** The three routines *)

(** A sampling function: the number of values asked for, and the state of
    the random generator before and after. *)
Definition sampler (rng : Type) : Type := Z -> rng -> list R * rng.

(** The sample size of the second stage (the right-hand side of the
    assignment to [nmu]). *)
Definition nmu_of (z sigmaUpBound tol : R) : Z :=
  Z.max 1 (astype_int (np_power2 (np_ceil (np_div (z * sigmaUpBound) tol)))).

(** [hum] is computed and not used, as in the source.  [nmu] is a 64-bit
    NumPy integer unless [max] picked the Python integer 1, so the sum
    [nsig + nmu] is a 64-bit addition. *)
Definition meanMC_CLT `{SciPy} {rng : Type} (inputRandomFuc : sampler rng)
    (absTol relTol alpha : R) (s0 : rng) : result ((R * Z) * rng) :=
  let nsig := 1000%Z in
  let inflate := 12 / 10 in
  let (YY, s1) := inputRandomFuc nsig s0 in
  let sigma := np_std YY 1 in
  let hum := np_mean YY in
  let sigmaUpBound := sigma * inflate in
  let nmu :=
    nmu_of (norm_ppf (1 - alpha / 2)) sigmaUpBound (Rmax absTol relTol) in
  let (Y, s2) := inputRandomFuc nmu s1 in
  let mu := np_mean Y in
  let nSample := wrap64 (nsig + nmu) in
  Ok ((mu, nSample), s2).

(** [stats.binom.cdf(k, n, p)] as SciPy answers: [nan] outside the
    arguments that [binom] accepts. *)
Definition stats_binom_cdf (k n : Z) (p : R) : float64 :=
  if binom_argcheck n p then Fin (binom_cdf k n p) else NaN.

(** [x + r] and [x - r] for a float [x] and a finite [r]. *)
Definition np_plus (x : float64) (r : R) : float64 :=
  match x with
  | Fin a => Fin (a + r)
  | other => other
  end.

Definition np_minus (x : float64) (r : R) : float64 :=
  match x with
  | Fin a => Fin (a - r)
  | other => other
  end.

(** The two functions that [binomialCI] hands to the solver. *)
Definition lower_equation (ntot nsuc : Z) (al2 : R) : R -> float64 :=
  fun x => np_plus (np_minus (stats_binom_cdf (nsuc - 1) ntot x) 1) al2.

Definition upper_equation (ntot nsuc : Z) (al2 : R) : R -> float64 :=
  fun x => np_minus (stats_binom_cdf nsuc ntot x) al2.

(** [ntot] and [nsuc] are Python integers: the first division raises when
    [ntot] is zero, or when the quotient is too large for a float.  With
    counts that a float holds, nothing else in the body raises: the solver
    and the NumPy operations answer an invalid argument with [nan] or
    [inf] and a warning. *)
Definition binomialCI `{SciPy} (ntot nsuc : Z) (alpha : R)
    : result ((R * R) * (R * R)) :=
  obsprob <- py_truediv nsuc ntot ;;
  let al2 := alpha / 2 in
  let plo :=
    if (nsuc =? 0)%Z then 0
    else fsolve (lower_equation ntot nsuc al2) obsprob in
  let pup :=
    if (nsuc =? ntot)%Z then 1
    else fsolve (upper_equation ntot nsuc al2) obsprob in
  let exactci := (plo, pup) in
  let half :=
    - norm_ppf al2 * sqrt (obsprob * (1 - obsprob)) / sqrt (IZR ntot) in
  let cltci := (obsprob + (-1) * half, obsprob + 1 * half) in
  Ok (exactci, cltci).

(** The array of order statistics that [quantileCI] builds. *)
Definition Xorder_of (Xsample : list R) (extremes : R * R) : list R :=
  let n := length Xsample in
  let Xorder := np_zeros (n + 2) in
  let Xorder := setitem Xorder 0 (fst extremes) in
  let Xorder := setslice Xorder 1 (n + 1) (sorted Xsample) in
  setitem Xorder (n + 1) (snd extremes).

(** The two entries are read in the order in which the source reads
    them, the lower position first. *)
Definition quantileCI (quant : R) (Xsample : list R) (extremes : R * R)
    (alpha : R) : result (R * R) :=
  let n := Z.of_nat (length Xsample) in
  let Xorder := Xorder_of Xsample extremes in
  let al2 := alpha / 2 in
  let lo := np_add_int 1 (binom_ppf al2 n quant) in
  let up := np_add_int 2 (binom_ppf (1 - al2) n quant) in
  a <- getitem Xorder (astype_int lo) ;;
  b <- getitem Xorder (astype_int up) ;;
  Ok (a, b).

(** ** Uniform random numbers *)

(** [np.random.rand(n, d)]: [n] rows of [d] numbers, with the state of the
    random generator before and after. *)
Definition uniform_source (rng : Type) : Type :=
  Z -> Z -> rng -> list (list R) * rng.

(** What [np.random.rand] is expected to do: return the shape asked for,
    with every entry in [0, 1). *)
Definition uniform_ok {rng : Type} (rand : uniform_source rng) : Prop :=
  forall (n d : Z) (s : rng),
    length (fst (rand n d s)) = Z.to_nat n /\
    Forall (fun row => length row = Z.to_nat d /\
                       Forall (fun u => 0 <= u < 1) row)
           (fst (rand n d s)).

(** ** The travel-time example *)

(** [a * b] on a row and a vector of the same length. *)
Definition np_mul (a b : list R) : list R :=
  map (fun ab => fst ab * snd ab) (combine a b).

(** [Ttot]: the total time of a trip with four uniform legs. *)
Definition Ttot {rng : Type} (rand : uniform_source rng) : sampler rng :=
  fun n s =>
    let (U, s') := rand n 4%Z s in
    (map (fun row => 16 + Rsum (np_mul row [3; 5; 12; 6])) U, s').

(** [sum(X > t)]: the number of entries of [X] above [t]. *)
Definition count_above (X : list R) (t : R) : Z :=
  fold_left (fun acc x => (acc + (if Rlt_dec t x then 1 else 0))%Z) X 0%Z.

(** The cell that brackets the probability of being late: a sample of [n]
    total times and the two intervals for the proportion above
    [lateTime]. *)
Definition late_probability_CI `{SciPy} {rng : Type}
    (rand : uniform_source rng) (n : Z) (lateTime alpha : R) (s : rng)
    : result ((R * R) * (R * R)) * (list R * rng) :=
  let (Ttotval, s') := Ttot rand n s in
  (binomialCI n (count_above Ttotval lateTime) alpha, (Ttotval, s')).

(** The cell that brackets the [1 - p] quantile of the total time, from
    the sample [Ttotval] of the cell before. *)
Definition late_quantile_CI (p : R) (Ttotval : list R) (alpha : R)
    : result (R * R) :=
  let extremeVal := (16, 42) in
  quantileCI (1 - p) Ttotval extremeVal alpha.

(** ** The election example *)

(** [a[i:j]] for [0 <= i] and [0 <= j]: the slice stops at the end of the
    array and never raises. *)
Definition slice (a : list R) (i j : nat) : list R :=
  firstn (j - i) (skipn i a).

(** [np.sum(U > CDF, axis = 1)] for a one-column matrix [U]: for each row
    [[u]], the number of entries of [CDF] below [u]. *)
Definition votes_of (U : list (list R)) (CDF : list R) : list Z :=
  map (fun row =>
         let u := nth 0 row 0 in
         Z.of_nat (length (filter (fun c => if Rlt_dec c u then true else false)
                                  CDF)))
      U.

(** [np.sum(votes == i)], stored in an array of floats. *)
Definition np_count_eq (votes : list Z) (i : Z) : R :=
  INR (length (filter (fun v => (v =? i)%Z) votes)).

(** The inner loop: [vote[i] = np.sum(votes == i)] for [i] in
    [range(nCandidate)], on the buffer [vote] that all trials share. *)
Definition count_votes (votes : list Z) (nCandidate : nat) (vote : list R)
    : list R :=
  fold_left (fun vote i => setitem vote i (np_count_eq votes (Z.of_nat i)))
            (seq 0 nCandidate) vote.

(** [np.all(vote[i] > vote[2:nCandidate])]. *)
Definition beats_rest (vote : list R) (i : Z) (nCandidate : nat)
    : result bool :=
  v <- getitem vote i ;;
  Ok (forallb (fun w => if Rlt_dec w v then true else false)
              (slice vote 2 nCandidate)).

(** A [for] loop over [range(start, start + count)] whose body may
    raise. *)
Fixpoint for_range {St : Type} (body : nat -> St -> result St)
    (start count : nat) (st : St) : result St :=
  match count with
  | O => Ok st
  | S count' =>
      st' <- body start st ;; for_range body (S start) count' st'
  end.

(** The body of the outer loop, on the arrays [Yes] and [vote] and the
    state of the random generator.  The right operand of [and] is
    evaluated only when the left one is true. *)
Definition TwoBestWin_trial {rng : Type} (rand : uniform_source rng)
    (nVotes : Z) (CDF : list R) (ii : nat) (st : (list R * list R) * rng)
    : result ((list R * list R) * rng) :=
  let '((Yes, vote), s) := st in
  let nCandidate := length CDF in
  let (U, s') := rand nVotes 1%Z s in
  let votes := votes_of U CDF in
  let vote := count_votes votes nCandidate vote in
  first <- beats_rest vote 0 nCandidate ;;
  both <- (if first then beats_rest vote 1 nCandidate else Ok false) ;;
  Ok ((setitem Yes ii (if both then 1 else 0), vote), s').

(** [nTrials] is a natural number: with a negative one [np.zeros] refuses
    to build [Yes]. *)
Definition TwoBestWin {rng : Type} (rand : uniform_source rng)
    (nTrials : nat) (nVotes : Z) (CDF : list R) (s : rng)
    : result (list R * rng) :=
  let Yes := np_zeros nTrials in
  let nCandidate := length CDF in
  let vote := np_zeros nCandidate in
  st <- for_range (TwoBestWin_trial rand nVotes CDF) 0 nTrials
                  ((Yes, vote), s) ;;
  Ok (fst (fst st), snd st).

(** The matrices that [k] successive calls of [rand(nVotes, 1)] return. *)
Fixpoint draws {rng : Type} (rand : uniform_source rng) (nVotes : Z)
    (k : nat) (s : rng) : list (list (list R)) * rng :=
  match k with
  | O => ([], s)
  | S k' =>
      let (U, s') := rand nVotes 1%Z s in
      let (rest, s'') := draws rand nVotes k' s' in
      (U :: rest, s'')
  end.

(** The votes that candidate [c] receives from the draws [U]. *)
Definition received (CDF : list R) (U : list (list R)) (c : nat) : R :=
  np_count_eq (votes_of U CDF) (Z.of_nat c).

(** The tallies of the candidates [0 .. nCandidate - 1]. *)
Definition tallies (votes : list Z) (nCandidate : nat) : list R :=
  map (fun i => np_count_eq votes (Z.of_nat i)) (seq 0 nCandidate).

(** Candidates 0 and 1 each have more votes than every later one. *)
Definition two_best (t : list R) : bool :=
  forallb (fun w => if Rlt_dec w (nth 0 t 0) then true else false)
          (skipn 2 t) &&
  forallb (fun w => if Rlt_dec w (nth 1 t 0) then true else false)
          (skipn 2 t).

(** The entry of [Yes] that the draws [U] of one trial give. *)
Definition outcome (CDF : list R) (U : list (list R)) : R :=
  if two_best (tallies (votes_of U CDF) (length CDF)) then 1 else 0.

(** A draw above every entry of [CDF]. *)
Definition above_all (CDF : list R) (row : list R) : bool :=
  forallb (fun c => if Rlt_dec c (nth 0 row 0) then true else false) CDF.

(** ** The digital option example *)

(** [x ** q] for [0 <= x] and [0 <= q]. *)
Definition np_pow (x q : R) : R :=
  if Req_dec_T x 0 then (if Req_dec_T q 0 then 1 else 0) else Rpower x q.

(** [np.prod]. *)
Definition np_prod (l : list R) : R := fold_right Rmult 1 l.

Module DigitalOption.

(** [Y]: the payoff 100 when the two uniform numbers add up to 1.7 or
    more. *)
Definition Y {rng : Type} (rand : uniform_source rng) : sampler rng :=
  fun n s =>
    let (U, s') := rand n 2%Z s in
    (map (fun row => 100 * (if Rle_dec (17 / 10) (Rsum row) then 1 else 0)) U,
     s').

(** One row of [YIS], with [p = 1] as the notebook sets it. *)
Definition YIS_row (x : list R) : float64 :=
  let p := 1 in
  np_div (100 / (p + 1) ^ 2 *
          (if Rle_dec (17 / 10) (Rsum (map (fun u => np_pow u (1 / (p + 1))) x))
           then 1 else 0))
         (np_pow (np_prod x) (p / (p + 1))).

(** [YIS]: the payoff under importance sampling, row by row. *)
Definition YIS (x : list (list R)) : list float64 := map YIS_row x.

End DigitalOption.

(** ** The European call example *)

(** [np.random.randn(n, d)]: [n] rows of [d] numbers, with the state of
    the random generator before and after. *)
Definition normal_source (rng : Type) : Type :=
  Z -> Z -> rng -> list (list R) * rng.

(** What [np.random.randn] is expected to do: return the shape asked
    for. *)
Definition normal_ok {rng : Type} (randn : normal_source rng) : Prop :=
  forall (n d : Z) (s : rng),
    length (fst (randn n d s)) = Z.to_nat n /\
    Forall (fun row => length row = Z.to_nat d) (fst (randn n d s)).

Module EuroCall.

Definition S0 : R := 53736 / 100.
Definition timeFinal : R := 1 / 2.
Definition interest : R := 50238 / 10000000.
Definition volatility : R := 19654 / 100000.
Definition K : R := 600.

(** The final stock price for the standard normal number [z]. *)
Definition price_at (z : R) : R :=
  S0 * exp ((interest - volatility ^ 2 / 2) * timeFinal
            + volatility * sqrt timeFinal * z).

(** [SVal]: a column of [n] final stock prices. *)
Definition SVal {rng : Type} (randn : normal_source rng)
    : Z -> rng -> list (list R) * rng :=
  fun n s =>
    let (Zs, s') := randn n 1%Z s in
    (map (map price_at) Zs, s').

(** The discounted payoff for the final price [S]. *)
Definition payoff_at (S : R) : R :=
  Rmax (S - K) 0 * exp (- interest * timeFinal).

(** [euroCallPayoff]: a column of [n] discounted payoffs; [np.mean] and
    [np.std] read it as a flat sample. *)
Definition euroCallPayoff {rng : Type} (randn : normal_source rng)
    : sampler rng :=
  fun n s =>
    let (Ss, s') := SVal randn n s in
    (concat (map (map payoff_at) Ss), s').

(** The argument of the second [norm.cdf] in [trueEuroCallPrice]. *)
Definition d2 : R :=
  (ln (S0 / K) + (interest - volatility ^ 2 / 2) * timeFinal)
  / (volatility * sqrt timeFinal).

End EuroCall.

(** ** Reference data for the examples *)

(** Six-decimal values of the standard normal quantile at the
    probabilities that the examples use (the 95% and 99% two-sided levels
    and the median); the examples consult it nowhere else. *)
Definition norm_ppf_table (p : R) : R :=
  if Req_dec_T p (39 / 40) then 1959964 / 1000000
  else if Req_dec_T p (1 / 40) then - (1959964 / 1000000)
  else if Req_dec_T p (199 / 200) then 2575829 / 1000000
  else if Req_dec_T p (1 / 200) then - (2575829 / 1000000)
  else 0.

(** A solver that stays at its seed when the function has no value
    beyond it or a zero residual there, and that otherwise returns a root
    in the open unit interval when there is one. *)
Definition fsolve_ideal (f : R -> float64) (x0 : R) : R :=
  if excluded_middle_informative
       ((forall x, x0 < x -> f x = NaN) \/
        (forall y0, f x0 = Fin y0 -> y0 = 0) \/
        ~ (exists p, 0 < p < 1 /\ f p = Fin 0))
  then x0
  else epsilon (inhabits x0) (fun p => 0 < p < 1 /\ f p = Fin 0).

Definition reference_scipy : SciPy :=
  {| norm_ppf := norm_ppf_table; fsolve := fsolve_ideal |}.

(** A generator that always returns the same value. *)
Definition constant_sampler (c : R) : sampler unit :=
  fun n s => (repeat c (Z.to_nat n), s).


(** A source of random numbers whose every entry is [u]. *)
Definition constant_rows (u : R) : Z -> Z -> unit -> list (list R) * unit :=
  fun n d s => (repeat (repeat u (Z.to_nat d)) (Z.to_nat n), s).

(** The solver takes its first slope from a point just beyond the seed:
    when the function has no value there, no step is ever accepted and
    the seed is returned (with a warning). *)
Definition fsolve_needs_a_slope `{SciPy} : Prop :=
  forall (f : R -> float64) (x0 : R),
    (forall x, x0 < x -> f x = NaN) -> fsolve f x0 = x0.

(** The solver accepts a step only when the residual there is a number
    smaller in magnitude than the current one: it returns its seed, or a
    point with a smaller residual. *)
Definition fsolve_descends `{SciPy} : Prop :=
  forall (f : R -> float64) (x0 : R),
    fsolve f x0 = x0 \/
    exists y0 y, f x0 = Fin y0 /\ f (fsolve f x0) = Fin y /\
                 Rabs y < Rabs y0.

(** What a sampling function is expected to do: return as many values as
    asked for. *)
Definition sampler_ok {rng : Type} (f : sampler rng) : Prop :=
  forall (n : Z) (s : rng), length (fst (f n s)) = Z.to_nat n.

(** ** Vocabulary of the statements *)

(** The distribution function on natural arguments. *)
Definition cdfN (n j : nat) (p : R) : R :=
  sum_f_R0 (fun i => binom_pmf n i p) j.

(** [k] is the smallest count whose distribution function reaches [q]. *)
Definition is_binom_quantile (q : R) (n : nat) (p : R) (k : nat) : Prop :=
  (k <= n)%nat /\ q <= cdfN n k p /\ forall i, (i < k)%nat -> cdfN n i p < q.

(** The mean of the distribution, summed up to [j]. *)
Definition meanN (n j : nat) (p : R) : R :=
  sum_f_R0 (fun i => INR i * binom_pmf n i p) j.

(** Float64 arithmetic next to 1 resolves differences of about [2^-53],
    and the rounding of a power or of a sum of many terms stays far below
    [2^-20].  A statement that says which entry is read asks that the
    levels stay away from the values of the distribution function by this
    margin. *)
Definition float_margin : R := / 2 ^ 20.

(** The level [q] is not within the margin of a value of the distribution
    function. *)
Definition resolved_level (q : R) (n : nat) (p : R) : Prop :=
  forall i, (i <= n)%nat -> float_margin <= Rabs (cdfN n i p - q).

(** * Properties *)

(** ** Integer conversion *)

Lemma Ztrunc_IZR (z : Z) : Ztrunc (IZR z) = z.
Proof.
  unfold Ztrunc. destruct (Rle_dec 0 (IZR z)).
  - apply ZfloorZ.
  - apply Zceil_eq. lra.
Qed.

Lemma astype_int_IZR (z : Z) :
  (INT64_MIN <= z <= INT64_MAX)%Z -> astype_int (Fin (IZR z)) = z.
Proof.
  intros [Hlo Hhi]. unfold astype_int. rewrite Ztrunc_IZR.
  apply Z.leb_le in Hlo. apply Z.leb_le in Hhi.
  now rewrite Hlo, Hhi.
Qed.

Lemma wrap64_small (z : Z) :
  (INT64_MIN <= z <= INT64_MAX)%Z -> wrap64 z = z.
Proof.
  unfold wrap64, INT64_MIN, INT64_MAX. intros H.
  rewrite Z.mod_small; lia.
Qed.

(** ** The second-stage sample size *)

Lemma np_div_nonzero (x y : R) : y <> 0 -> np_div x y = Fin (x / y).
Proof.
  intros Hy. unfold np_div.
  destruct (Req_dec_T y 0); [contradiction | reflexivity].
Qed.



(** With a zero tolerance the quotient is not finite, its conversion is
    invalid, and the size falls back to 1. *)
Lemma nmu_of_zero_tol (z s : R) : nmu_of z s 0 = 1%Z.
Proof.
  unfold nmu_of, np_div.
  destruct (Req_dec_T 0 0) as [_ | N]; [| now elim N].
  destruct (Rlt_dec 0 (z * s)); [reflexivity |].
  destruct (Rlt_dec (z * s) 0); reflexivity.
Qed.

(** The size is at least 1, and small enough for the total count not to
    wrap. *)
Lemma nmu_of_bounds (z s tol : R) :
  (1 <= nmu_of z s tol <= INT64_MAX - 1000)%Z.
Proof.
  unfold nmu_of. split; [lia |].
  apply Z.max_lub; [unfold INT64_MAX; lia |].
  destruct (np_div (z * s) tol) as [r | | |];
    cbn [np_ceil np_power2 astype_int];
    try (unfold INT64_MIN, INT64_MAX; lia).
  rewrite pow_IZR. change (Z.of_nat 2) with 2%Z. rewrite Ztrunc_IZR.
  set (c := Zceil r).
  destruct ((INT64_MIN <=? c ^ 2) && (c ^ 2 <=? INT64_MAX))%Z eqn:E;
    [| unfold INT64_MIN, INT64_MAX; lia].
  apply andb_true_iff in E. destruct E as [_ E]. apply Z.leb_le in E.
  unfold INT64_MAX in *.
  assert (Hc : (-3037000499 <= c <= 3037000499)%Z) by nia.
  nia.
Qed.

Lemma total_count_exact (z s tol : R) :
  wrap64 (1000 + nmu_of z s tol) = (1000 + nmu_of z s tol)%Z.
Proof.
  pose proof (nmu_of_bounds z s tol) as H.
  apply wrap64_small. unfold INT64_MIN, INT64_MAX in *. lia.
Qed.



(** ** Sums over samples *)

Lemma Rsum_app (l1 l2 : list R) : Rsum (l1 ++ l2) = Rsum l1 + Rsum l2.
Proof.
  induction l1 as [| x l1 IH]; simpl; [lra |].
  unfold Rsum in *. simpl. rewrite IH. lra.
Qed.

Lemma Rsum_repeat (c : R) (n : nat) : Rsum (repeat c n) = INR n * c.
Proof.
  induction n as [| n IH].
  - simpl. lra.
  - rewrite S_INR. cbn [repeat]. unfold Rsum in *. cbn [fold_right].
    rewrite IH. lra.
Qed.





(** ** The adaptive mean estimator *)

Section MeanMC.

Context `{SciPy} {rng : Type}.

(** The whole run, with the two draws named. *)
Lemma meanMC_CLT_run (f : sampler rng) (absTol relTol alpha : R) (s0 : rng) :
  let YY := fst (f 1000%Z s0) in
  let s1 := snd (f 1000%Z s0) in
  let nmu := nmu_of (norm_ppf (1 - alpha / 2)) (np_std YY 1 * (12 / 10))
                    (Rmax absTol relTol) in
  meanMC_CLT f absTol relTol alpha s0
  = Ok ((np_mean (fst (f nmu s1)), (1000 + nmu)%Z), snd (f nmu s1)).
Proof.
  intros YY s1 nmu. unfold meanMC_CLT.
  subst YY s1 nmu. destruct (f 1000%Z s0) as [YY s1]. cbn [fst snd].
  destruct (f _ s1) as [Y s2]. cbn [fst snd].
  now rewrite total_count_exact.
Qed.


(** C4, as the code has it: with both tolerances zero no error is raised;
    the quotient is not finite, its conversion to an integer is invalid,
    and the call returns the mean of a single fresh value with a total
    count of 1001. *)
Theorem meanMC_CLT_zero_tolerance (f : sampler rng) (alpha : R) (s0 : rng) :
  let s1 := snd (f 1000%Z s0) in
  meanMC_CLT f 0 0 alpha s0
  = Ok ((np_mean (fst (f 1%Z s1)), 1001%Z), snd (f 1%Z s1)).
Proof.
  intros s1. rewrite meanMC_CLT_run. fold s1.
  replace (Rmax 0 0) with 0
    by (unfold Rmax; destruct (Rle_dec 0 0); reflexivity).
  now rewrite nmu_of_zero_tol.
Qed.


End MeanMC.

(** ** The binomial distribution *)

Lemma binom_cdf_cdfN (k n : Z) (p : R) :
  (0 <= k)%Z -> binom_cdf k n p = cdfN (Z.to_nat n) (Z.to_nat k) p.
Proof.
  intros Hk. unfold binom_cdf.
  destruct (k <? 0)%Z eqn:E; [apply Z.ltb_lt in E; lia | reflexivity].
Qed.

Lemma binom_n_0 (n : nat) : binom n 0 = 1%nat.
Proof. destruct n; reflexivity. Qed.

Lemma binom_gt (n : nat) : forall k, (n < k)%nat -> binom n k = 0%nat.
Proof.
  induction n as [| n IH]; intros [| k] Hk; simpl; try lia.
  rewrite !IH by lia. reflexivity.
Qed.

Lemma binom_pos (n : nat) : forall k, (k <= n)%nat -> (0 < binom n k)%nat.
Proof.
  induction n as [| n IH]; intros [| k] Hk; simpl; try lia.
  specialize (IH k). lia.
Qed.

Lemma binom_pmf_0 (n : nat) (p : R) :
  binom_pmf (S n) 0 p = (1 - p) * binom_pmf n 0 p.
Proof.
  unfold binom_pmf. rewrite !binom_n_0, !Nat.sub_0_r. simpl. ring.
Qed.

Lemma binom_pmf_S (n i : nat) (p : R) :
  binom_pmf (S n) (S i) p
  = (1 - p) * binom_pmf n (S i) p + p * binom_pmf n i p.
Proof.
  unfold binom_pmf. cbn [binom]. rewrite plus_INR.
  replace (S n - S i)%nat with (n - i)%nat by lia.
  destruct (le_lt_dec (S i) n) as [Hle | Hgt].
  - replace (n - i)%nat with (S (n - S i)) by lia. simpl. ring.
  - rewrite (binom_gt n (S i)) by lia. simpl. ring.
Qed.

Lemma cdfN_0 (n : nat) (p : R) : cdfN (S n) 0 p = (1 - p) * cdfN n 0 p.
Proof. unfold cdfN. simpl. apply binom_pmf_0. Qed.

Lemma cdfN_step (n j : nat) (p : R) :
  cdfN n (S j) p = cdfN n j p + binom_pmf n (S j) p.
Proof. reflexivity. Qed.

(** One more trial: it fails, or it succeeds. *)
Lemma cdfN_S (n j : nat) (p : R) :
  cdfN (S n) (S j) p = (1 - p) * cdfN n (S j) p + p * cdfN n j p.
Proof.
  induction j as [| j IH].
  - rewrite !cdfN_step. unfold cdfN. simpl sum_f_R0.
    rewrite binom_pmf_0, binom_pmf_S. ring.
  - rewrite (cdfN_step (S n)), IH, binom_pmf_S, !(cdfN_step n). ring.
Qed.

Lemma cdfN_full (n : nat) : forall j p, (n <= j)%nat -> cdfN n j p = 1.
Proof.
  induction n as [| n IH]; intros j p Hj.
  - clear Hj. induction j as [| j IHj].
    + unfold cdfN, binom_pmf. simpl. ring.
    + rewrite cdfN_step, IHj. unfold binom_pmf. simpl. ring.
  - destruct j as [| j]; [lia |].
    rewrite cdfN_S, !IH by lia. ring.
Qed.

Lemma binom_pmf_nonneg (n i : nat) (p : R) :
  0 <= p <= 1 -> 0 <= binom_pmf n i p.
Proof.
  intros Hp. unfold binom_pmf.
  repeat apply Rmult_le_pos.
  - apply pos_INR.
  - apply pow_le. lra.
  - apply pow_le. lra.
Qed.

Lemma binom_pmf_pos (n i : nat) (p : R) :
  (i <= n)%nat -> 0 < p < 1 -> 0 < binom_pmf n i p.
Proof.
  intros Hi Hp. unfold binom_pmf.
  repeat apply Rmult_lt_0_compat.
  - apply lt_0_INR. now apply binom_pos.
  - apply pow_lt. lra.
  - apply pow_lt. lra.
Qed.

Lemma cdfN_nonneg (n j : nat) (p : R) : 0 <= p <= 1 -> 0 <= cdfN n j p.
Proof.
  intros Hp. induction j as [| j IH].
  - unfold cdfN. simpl. now apply binom_pmf_nonneg.
  - rewrite cdfN_step. pose proof (binom_pmf_nonneg n (S j) p Hp). lra.
Qed.

Lemma cdfN_mono_j (n j j' : nat) (p : R) :
  0 <= p <= 1 -> (j <= j')%nat -> cdfN n j p <= cdfN n j' p.
Proof.
  intros Hp Hj. induction Hj as [| j' Hj IH]; [lra |].
  rewrite cdfN_step. pose proof (binom_pmf_nonneg n (S j') p Hp). lra.
Qed.

(** The distribution function does not increase with [p]. *)
Lemma cdfN_decreasing (n : nat) :
  forall j p p', 0 <= p -> p <= p' -> p' <= 1 -> cdfN n j p' <= cdfN n j p.
Proof.
  induction n as [| n IH]; intros j p p' H0 Hpp H1.
  - rewrite !cdfN_full by lia. lra.
  - destruct j as [| j].
    + rewrite !cdfN_0.
      pose proof (IH 0%nat p p' H0 Hpp H1) as IH0.
      assert (Hn : 0 <= cdfN n 0 p') by (apply cdfN_nonneg; lra).
      assert (0 <= (1 - p') * (cdfN n 0 p - cdfN n 0 p'))
        by (apply Rmult_le_pos; lra).
      assert (0 <= (p' - p) * cdfN n 0 p)
        by (apply Rmult_le_pos; lra).
      lra.
    + rewrite !cdfN_S.
      pose proof (IH (S j) p p' H0 Hpp H1) as IHa.
      pose proof (IH j p p' H0 Hpp H1) as IHb.
      assert (Hstep : cdfN n j p <= cdfN n (S j) p)
        by (apply cdfN_mono_j; [lra | lia]).
      assert (0 <= (1 - p') * (cdfN n (S j) p - cdfN n (S j) p'))
        by (apply Rmult_le_pos; lra).
      assert (0 <= p' * (cdfN n j p - cdfN n j p'))
        by (apply Rmult_le_pos; lra).
      assert (0 <= (p' - p) * (cdfN n (S j) p - cdfN n j p))
        by (apply Rmult_le_pos; lra).
      lra.
Qed.

(** Strictly so inside the unit interval, below the last count. *)
Lemma cdfN_strictly_decreasing (n j : nat) (p p' : R) :
  (j < n)%nat -> 0 < p -> p < p' -> p' < 1 -> cdfN n j p' < cdfN n j p.
Proof.
  intros Hj H0 Hpp H1.
  destruct n as [| n]; [lia |].
  destruct j as [| j].
  - rewrite !cdfN_0.
    pose proof (cdfN_decreasing n 0%nat p p') as Hd.
    assert (Hpos : 0 < cdfN n 0 p)
      by (unfold cdfN; simpl; apply binom_pmf_pos; [lia | lra]).
    assert (0 <= (1 - p') * (cdfN n 0 p - cdfN n 0 p'))
      by (apply Rmult_le_pos; lra).
    assert (0 < (p' - p) * cdfN n 0 p)
      by (apply Rmult_lt_0_compat; lra).
    lra.
  - rewrite !cdfN_S.
    pose proof (cdfN_decreasing n (S j) p p') as Hda.
    pose proof (cdfN_decreasing n j p p') as Hdb.
    assert (Hpmf : 0 < binom_pmf n (S j) p)
      by (apply binom_pmf_pos; [lia | lra]).
    rewrite (cdfN_step n j p) in *.
    assert (0 <= (1 - p')
                 * (cdfN n j p + binom_pmf n (S j) p - cdfN n (S j) p'))
      by (apply Rmult_le_pos; lra).
    assert (0 <= p' * (cdfN n j p - cdfN n j p'))
      by (apply Rmult_le_pos; lra).
    assert (0 < (p' - p) * binom_pmf n (S j) p)
      by (apply Rmult_lt_0_compat; lra).
    lra.
Qed.

Lemma cdfN_at_0 (n j : nat) : cdfN n j 0 = 1.
Proof.
  induction j as [| j IH].
  - unfold cdfN, binom_pmf. simpl. rewrite binom_n_0, Rminus_0_r, pow1.
    simpl. ring.
  - rewrite cdfN_step, IH. unfold binom_pmf. simpl. ring.
Qed.

Lemma cdfN_at_1 (n j : nat) : (j < n)%nat -> cdfN n j 1 = 0.
Proof.
  intros Hj.
  assert (Hpmf : forall i, (i < n)%nat -> binom_pmf n i 1 = 0).
  { intros i Hi. unfold binom_pmf.
    replace (n - i)%nat with (S (n - S i)) by lia. simpl. ring. }
  induction j as [| j IH].
  - unfold cdfN. simpl. now apply Hpmf.
  - rewrite cdfN_step, IH, Hpmf by lia. ring.
Qed.

Lemma binom_pmf_continuous (n i : nat) : continuity (fun p => binom_pmf n i p).
Proof.
  unfold binom_pmf.
  apply continuity_mult with (f1 := fun p => INR (binom n i) * p ^ i)
                             (f2 := fun p => (1 - p) ^ (n - i)).
  - apply continuity_mult with (f1 := fun _ => INR (binom n i))
                               (f2 := fun p => p ^ i).
    + apply continuity_const. intros x y. reflexivity.
    + apply derivable_continuous, derivable_pow.
  - apply continuity_comp with (f1 := fun p => 1 - p)
                               (f2 := fun y => y ^ (n - i)).
    + apply continuity_minus with (f1 := fun _ => 1) (f2 := fun p => p).
      * apply continuity_const. intros x y. reflexivity.
      * apply derivable_continuous, derivable_id.
    + apply derivable_continuous, derivable_pow.
Qed.

Lemma cdfN_continuous (n j : nat) : continuity (fun p => cdfN n j p).
Proof.
  induction j as [| j IH].
  - unfold cdfN. simpl. apply binom_pmf_continuous.
  - apply continuity_plus with (f1 := fun p => cdfN n j p)
                               (f2 := fun p => binom_pmf n (S j) p).
    + exact IH.
    + apply binom_pmf_continuous.
Qed.

(** Below the last count the distribution function takes every level
    strictly between 0 and 1 at exactly one [p] of the open unit
    interval. *)
Lemma binom_cdf_unique_root (k n : Z) (c : R) :
  (0 <= k < n)%Z -> 0 < c < 1 ->
  exists p, 0 < p < 1 /\ binom_cdf k n p = c /\
            forall q, 0 < q < 1 -> binom_cdf k n q = c -> q = p.
Proof.
  intros Hk Hc.
  assert (Hjn : (Z.to_nat k < Z.to_nat n)%nat) by lia.
  set (g := fun p => c - cdfN (Z.to_nat n) (Z.to_nat k) p).
  assert (Hcont : continuity g).
  { apply continuity_minus
      with (f1 := fun _ => c)
           (f2 := fun p => cdfN (Z.to_nat n) (Z.to_nat k) p).
    - apply continuity_const. intros x y. reflexivity.
    - apply cdfN_continuous. }
  assert (Hg0 : g 0 < 0) by (unfold g; rewrite cdfN_at_0; lra).
  assert (Hg1 : 0 < g 1) by (unfold g; rewrite cdfN_at_1 by assumption; lra).
  destruct (IVT g 0 1 Hcont Rlt_0_1 Hg0 Hg1) as [p [[Hp0 Hp1] Hgp]].
  assert (Hp : 0 < p < 1).
  { split.
    - destruct Hp0 as [H | H]; [assumption |]. subst p. lra.
    - destruct Hp1 as [H | H]; [assumption |]. subst p. lra. }
  exists p. split; [assumption |]. split.
  - rewrite binom_cdf_cdfN by lia. unfold g in Hgp. lra.
  - intros q Hq Hcq. rewrite binom_cdf_cdfN in Hcq by lia.
    unfold g in Hgp.
    destruct (Rtotal_order q p) as [Hlt | [Heq | Hgt]]; [| assumption |].
    + pose proof (cdfN_strictly_decreasing _ _ q p Hjn) as Hs. lra.
    + pose proof (cdfN_strictly_decreasing _ _ p q Hjn) as Hs. lra.
Qed.

(** ** An integer mean of a binomial distribution is a median

    The exact interval of [binomialCI] contains the observed proportion
    because [nSuccess] is a median of the binomial distribution with
    [nTotal] trials and mean [nSuccess].  The proof compares the
    probabilities at equal distances on both sides of the mean. *)

Module Median.

(** *** Sums *)

Lemma sum_nonneg_upto (f : nat -> R) (N : nat) :
  (forall j, (j <= N)%nat -> 0 <= f j) -> 0 <= sum_f_R0 f N.
Proof.
  induction N as [| N IH]; intros Hf; simpl.
  - apply Hf. lia.
  - assert (0 <= sum_f_R0 f N) by (apply IH; intros j Hj; apply Hf; lia).
    assert (0 <= f (S N)) by (apply Hf; lia). lra.
Qed.

Lemma sum_le_upto (f g : nat -> R) (N : nat) :
  (forall j, (j <= N)%nat -> f j <= g j) -> sum_f_R0 f N <= sum_f_R0 g N.
Proof.
  induction N as [| N IH]; intros Hf; simpl.
  - apply Hf. lia.
  - assert (sum_f_R0 f N <= sum_f_R0 g N)
      by (apply IH; intros j Hj; apply Hf; lia).
    assert (f (S N) <= g (S N)) by (apply Hf; lia). lra.
Qed.

Lemma sum_ext_upto (f g : nat -> R) (N : nat) :
  (forall j, (j <= N)%nat -> f j = g j) -> sum_f_R0 f N = sum_f_R0 g N.
Proof.
  induction N as [| N IH]; intros Hf; simpl.
  - apply Hf. lia.
  - rewrite IH by (intros j Hj; apply Hf; lia). rewrite Hf by lia. reflexivity.
Qed.

Lemma sum_weighted (c : R) (d : nat -> R) (N : nat) :
  sum_f_R0 (fun j => (c - INR j) * d j) N
  = c * sum_f_R0 d N - sum_f_R0 (fun j => INR j * d j) N.
Proof.
  induction N as [| N IH]; simpl sum_f_R0.
  - simpl. ring.
  - rewrite IH. ring.
Qed.

Lemma sum_minus (f g : nat -> R) (N : nat) :
  sum_f_R0 (fun j => f j - g j) N = sum_f_R0 f N - sum_f_R0 g N.
Proof.
  induction N as [| N IH]; simpl sum_f_R0; [ring | rewrite IH; ring].
Qed.

(** The sum of the first terms of a sequence that vanishes afterwards. *)
Lemma sum_zero_tail (f : nat -> R) (N M : nat) :
  (N <= M)%nat -> (forall j, (N < j <= M)%nat -> f j = 0) ->
  sum_f_R0 f M = sum_f_R0 f N.
Proof.
  intros HNM. induction HNM as [| M HNM IH]; intros Hz; [reflexivity |].
  simpl. rewrite IH by (intros j Hj; apply Hz; lia).
  rewrite Hz by lia. ring.
Qed.

(** Summation in the opposite order. *)
Lemma sum_rev (N : nat) : forall f : nat -> R,
  sum_f_R0 (fun j => f (N - j)%nat) N = sum_f_R0 f N.
Proof.
  induction N as [| N IH]; intros f; [reflexivity |].
  rewrite decomp_sum by lia. cbn [pred].
  rewrite (sum_ext_upto (fun i => f (S N - S i)%nat) (fun i => f (N - i)%nat))
    by (intros; reflexivity).
  rewrite IH. simpl. ring.
Qed.

(** The terms up to [N], then those that follow. *)
Lemma sum_split (f : nat -> R) (N K : nat) :
  sum_f_R0 f (N + S K)
  = sum_f_R0 f N + sum_f_R0 (fun j => f (S N + j)%nat) K.
Proof.
  rewrite (tech2 f N (N + S K)) by lia.
  replace (N + S K - S N)%nat with K by lia. reflexivity.
Qed.

(** *** A sequence that changes sign once *)

Section Crossing.

Variable d : nat -> R.
Variable T : nat -> bool.

Hypothesis d_start : 0 <= d 0.
Hypothesis d_before : forall j, T j = false -> 0 <= d j -> 0 <= d (S j).
Hypothesis d_after : forall j, T j = true -> d j <= 0 -> d (S j) <= 0.
Hypothesis T_mono : forall j, T j = true -> T (S j) = true.

Lemma T_false_below (M : nat) :
  T M = false -> forall j, (j <= M)%nat -> T j = false.
Proof.
  intros HM j Hj. induction Hj as [| M Hj IH]; [assumption |].
  apply IH. destruct (T M) eqn:E; [| reflexivity].
  rewrite (T_mono M E) in HM. discriminate.
Qed.

Lemma d_nonneg_before (j : nat) :
  (forall i, (i < j)%nat -> T i = false) -> 0 <= d j.
Proof.
  induction j as [| j IH]; intros HT; [exact d_start |].
  apply d_before; [apply HT; lia |].
  apply IH. intros i Hi. apply HT. lia.
Qed.

Lemma sign_pattern (M : nat) :
  exists J : nat,
    (forall j, (j <= J)%nat -> (j <= M)%nat -> 0 <= d j) /\
    (forall j, (J < j)%nat -> (j <= M)%nat -> d j <= 0).
Proof.
  induction M as [| M [J [Hpos Hneg]]].
  - exists 0%nat. split; intros j Hj Hj'.
    + replace j with 0%nat by lia. exact d_start.
    + lia.
  - destruct (T M) eqn:ET.
    + destruct (le_lt_dec M J) as [HJ | HJ].
      * destruct (Rle_lt_dec 0 (d (S M))) as [Hd | Hd].
        -- exists (S M). split; intros j Hj Hj'; [| lia].
           destruct (Nat.eq_dec j (S M)) as [-> | Hne]; [assumption |].
           apply Hpos; lia.
        -- exists M. split; intros j Hj Hj'.
           ++ apply Hpos; lia.
           ++ replace j with (S M) by lia. lra.
      * exists J. split; intros j Hj Hj'.
        -- apply Hpos; lia.
        -- destruct (Nat.eq_dec j (S M)) as [-> | Hne].
           ++ apply d_after; [assumption |]. apply Hneg; lia.
           ++ apply Hneg; lia.
    + exists (S M). split; intros j Hj Hj'; [| lia].
      apply d_nonneg_before. intros i Hi.
      apply (T_false_below M ET). lia.
Qed.

(** If the weighted sum is not negative, neither is the plain sum. *)
Lemma crossing_sum (M : nat) :
  0 <= sum_f_R0 (fun j => INR j * d j) M -> 0 <= sum_f_R0 d M.
Proof.
  intros Hw.
  destruct (sign_pattern M) as [J [Hpos Hneg]].
  assert (Hterm : 0 <= sum_f_R0 (fun j => (INR (S J) - INR j) * d j) M).
  { apply sum_nonneg_upto. intros j Hj.
    destruct (le_lt_dec j J) as [Hle | Hgt].
    - apply Rmult_le_pos; [| now apply Hpos].
      apply le_INR in Hle. rewrite S_INR. lra.
    - assert (Hd : d j <= 0) by now apply Hneg.
      assert (Hc : INR (S J) - INR j <= 0).
      { assert (H' : (S J <= j)%nat) by lia. apply le_INR in H'. lra. }
      nra. }
  rewrite sum_weighted in Hterm.
  assert (HJ : 0 < INR (S J)) by (apply lt_0_INR; lia).
  nra.
Qed.

End Crossing.

(** *** Neighbouring binomial probabilities *)

Lemma binom_succ_ratio (n : nat) :
  forall i, (S i * binom n (S i) = (n - i) * binom n i)%nat.
Proof.
  induction n as [| n IH]; intros i.
  - cbn [binom]. lia.
  - destruct i as [| i].
    + pose proof (IH 0%nat) as H0. rewrite binom_n_0 in *.
      cbn [binom]. rewrite binom_n_0. lia.
    + pose proof (IH i) as Hi. pose proof (IH (S i)) as HSi.
      cbn [binom].
      destruct (le_lt_dec (S i) n) as [Hle | Hgt].
      * replace (S n - S i)%nat with (S (n - S i)) by lia.
        replace (n - i)%nat with (S (n - S i)) in Hi by lia.
        nia.
      * rewrite (binom_gt n (S i)) in * by lia.
        rewrite (binom_gt n (S (S i))) in * by lia.
        replace (S n - S i)%nat with 0%nat by lia. lia.
Qed.

Lemma pmf_succ_ratio (n i : nat) (p : R) :
  (i < n)%nat ->
  INR (S i) * binom_pmf n (S i) p * (1 - p)
  = INR (n - i) * binom_pmf n i p * p.
Proof.
  intros Hi. unfold binom_pmf.
  pose proof (binom_succ_ratio n i) as Hr.
  apply (f_equal INR) in Hr. rewrite !mult_INR in Hr.
  replace (n - i)%nat with (S (n - S i)) at 2 by lia.
  rewrite <- !tech_pow_Rmult.
  transitivity (INR (S i) * INR (binom n (S i))
                * (p * p ^ i * (1 - p) ^ (n - S i) * (1 - p))); [ring |].
  rewrite Hr. ring.
Qed.

(** Counting failures instead of successes. *)
Lemma cdfN_symm (n : nat) (p : R) :
  forall j, (j < n)%nat -> cdfN n j p + cdfN n (n - j - 1) (1 - p) = 1.
Proof.
  induction n as [| n IH]; intros j Hj; [lia |].
  destruct j as [| j].
  - replace (S n - 0 - 1)%nat with n by lia.
    rewrite cdfN_0.
    destruct n as [| n'].
    + rewrite cdfN_0, !cdfN_full by lia. ring.
    + rewrite cdfN_S, (cdfN_full (S n') (S n')) by lia.
      pose proof (IH 0%nat ltac:(lia)) as H0.
      replace (S n' - 0 - 1)%nat with n' in H0 by lia.
      replace (cdfN (S n') n' (1 - p)) with (1 - cdfN (S n') 0 p) by lra.
      ring.
  - replace (S n - S j - 1)%nat with (n - j - 1)%nat by lia.
    rewrite cdfN_S.
    pose proof (IH j ltac:(lia)) as Hj0.
    destruct (n - j - 1)%nat as [| r] eqn:Er.
    + assert (S j = n) by lia. subst n.
      rewrite cdfN_0, cdfN_full by lia.
      replace (cdfN (S j) 0 (1 - p)) with (1 - cdfN (S j) j p) by lra.
      ring.
    + rewrite cdfN_S.
      pose proof (IH (S j) ltac:(lia)) as Hj1.
      replace (n - S j - 1)%nat with r in Hj1 by lia.
      replace (cdfN n (S r) (1 - p)) with (1 - cdfN n j p) by lra.
      replace (cdfN n r (1 - p)) with (1 - cdfN n (S j) p) by lra.
      ring.
Qed.

Lemma meanN_S (n j : nat) (p : R) :
  meanN (S n) (S j) p
  = (1 - p) * meanN n (S j) p + p * (meanN n j p + cdfN n j p).
Proof.
  induction j as [| j IH].
  - unfold meanN, cdfN. simpl sum_f_R0. rewrite binom_pmf_S. simpl INR. ring.
  - unfold meanN, cdfN in *. 
    change (sum_f_R0 (fun i => INR i * binom_pmf (S n) i p) (S (S j)))
      with (sum_f_R0 (fun i => INR i * binom_pmf (S n) i p) (S j)
            + INR (S (S j)) * binom_pmf (S n) (S (S j)) p).
    rewrite IH, binom_pmf_S.
    change (sum_f_R0 (fun i => INR i * binom_pmf n i p) (S (S j)))
      with (sum_f_R0 (fun i => INR i * binom_pmf n i p) (S j)
            + INR (S (S j)) * binom_pmf n (S (S j)) p).
    change (sum_f_R0 (fun i => binom_pmf n i p) (S j))
      with (sum_f_R0 (fun i => binom_pmf n i p) j + binom_pmf n (S j) p).
    change (sum_f_R0 (fun i => INR i * binom_pmf n i p) (S j))
      with (sum_f_R0 (fun i => INR i * binom_pmf n i p) j
            + INR (S j) * binom_pmf n (S j) p).
    rewrite (S_INR (S j)). ring.
Qed.

Lemma meanN_full (n : nat) (p : R) :
  forall j, (n <= j)%nat -> meanN n j p = INR n * p.
Proof.
  induction n as [| n IH]; intros j Hj.
  - clear Hj. induction j as [| j IHj].
    + unfold meanN. simpl. ring.
    + unfold meanN in *. simpl sum_f_R0. rewrite IHj.
      unfold binom_pmf. simpl. ring.
  - destruct j as [| j]; [lia |].
    rewrite meanN_S, !IH, cdfN_full by lia. rewrite S_INR. ring.
Qed.

Lemma sum_grow (f : nat -> R) (N M : nat) :
  (N <= M)%nat -> (forall j, 0 <= f j) -> sum_f_R0 f N <= sum_f_R0 f M.
Proof.
  intros HNM Hf. induction HNM as [| M HNM IH]; [lra |].
  simpl. pose proof (Hf (S M)). lra.
Qed.

(** Two quantities that are scaled by comparable factors stay in order. *)
Lemma scaled_le (c P Q a e a' e' : R) :
  0 < c -> 0 <= P <= Q -> 0 <= a <= e ->
  c * a' = P * a -> c * e' = Q * e -> a' <= e'.
Proof.
  intros Hc HPQ Hae Ha He.
  apply Rmult_le_reg_l with c; [assumption |].
  rewrite Ha, He. apply Rmult_le_compat; lra.
Qed.

(** *** Probabilities at equal distances from the mean *)

Section Center.

(** [k] successes and [m] failures are expected in [n = k + m] trials, and
    successes are not the more likely outcome. *)
Variables n k m : nat.
Hypothesis n_split : (k + m = n)%nat.
Hypothesis n_pos : (0 < n)%nat.
Hypothesis k_le_m : (k <= m)%nat.

Let p : R := INR k / INR n.
Let b (i : nat) : R := binom_pmf n i p.

Lemma p_range : 0 <= p <= 1.
Proof.
  unfold p. assert (Hn : 0 < INR n) by (apply lt_0_INR; lia).
  assert (Hk : 0 <= INR k) by apply pos_INR.
  assert (Hkn : INR k <= INR n) by (apply le_INR; lia).
  split.
  - apply Rmult_le_pos; [lra | apply Rlt_le, Rinv_0_lt_compat; lra].
  - apply Rmult_le_reg_r with (INR n); [lra |].
    unfold Rdiv. rewrite Rmult_assoc, Rinv_l by lra. lra.
Qed.

Lemma b_nonneg (i : nat) : 0 <= b i.
Proof. apply binom_pmf_nonneg, p_range. Qed.

(** From one count to the next. *)
Lemma b_ratio (i : nat) :
  (i < n)%nat ->
  INR (S i) * b (S i) * INR m = INR (n - i) * b i * INR k.
Proof.
  intros Hi. pose proof (pmf_succ_ratio n i p Hi) as Hr.
  assert (Hn : 0 < INR n) by (apply lt_0_INR; lia).
  assert (Hp : INR k = p * INR n) by (unfold p; field; lra).
  assert (Hq : INR m = (1 - p) * INR n).
  { assert (Hkm : INR k + INR m = INR n) by (rewrite <- plus_INR; now f_equal).
    unfold p. field_simplify_eq; lra. }
  unfold b. rewrite Hq, Hp.
  transitivity (INR (S i) * binom_pmf n (S i) p * (1 - p) * INR n); [ring |].
  rewrite Hr. ring.
Qed.

(** The probabilities at distance [j] above and below [k]. *)
Let A (j : nat) : R := b (k + j).
Let E (j : nat) : R := if (j <=? k)%nat then b (k - j) else 0.
Let D (j : nat) : R := E j - A j.
Let T (j : nat) : bool := (k * m <=? j * S j * n)%nat.

Lemma A_nonneg (j : nat) : 0 <= A j.
Proof. apply b_nonneg. Qed.

Lemma E_nonneg (j : nat) : 0 <= E j.
Proof. unfold E. destruct (j <=? k)%nat; [apply b_nonneg | lra]. Qed.

Lemma A_step (j : nat) :
  (j < m)%nat ->
  INR (k + j + 1) * A (S j) * INR m = INR (m - j) * A j * INR k.
Proof.
  intros Hj. unfold A.
  pose proof (b_ratio (k + j) ltac:(lia)) as Hr.
  replace (n - (k + j))%nat with (m - j)%nat in Hr by lia.
  replace (k + S j)%nat with (S (k + j)) by lia.
  replace (k + j + 1)%nat with (S (k + j)) by lia.
  exact Hr.
Qed.

Lemma E_step (j : nat) :
  (j < k)%nat ->
  INR (k - j) * E j * INR m = INR (m + j + 1) * E (S j) * INR k.
Proof.
  intros Hj. unfold E.
  replace (j <=? k)%nat with true by (symmetry; apply Nat.leb_le; lia).
  replace (S j <=? k)%nat with true by (symmetry; apply Nat.leb_le; lia).
  pose proof (b_ratio (k - S j) ltac:(lia)) as Hr.
  replace (S (k - S j)) with (k - j)%nat in Hr by lia.
  replace (n - (k - S j))%nat with (m + j + 1)%nat in Hr by lia.
  exact Hr.
Qed.

Lemma T_true_from_k (j : nat) : (k <= j)%nat -> T j = true.
Proof.
  intros Hj. unfold T. apply Nat.leb_le. nia.
Qed.

Lemma T_mono (j : nat) : T j = true -> T (S j) = true.
Proof.
  unfold T. intros H. apply Nat.leb_le in H. apply Nat.leb_le. nia.
Qed.

Lemma D_start : 0 <= D 0.
Proof.
  unfold D, E, A. cbn [Nat.leb]. rewrite Nat.sub_0_r, Nat.add_0_r. lra.
Qed.

(** Which of the two sequences shrinks faster between the distances [j]
    and [j + 1] is decided by comparing two products; their difference
    factors. *)
Lemma D_step_gap (j : nat) :
  (j < k)%nat ->
  INR (m - j) * INR (m + j + 1) * INR k * INR k
  - INR (k - j) * INR (k + j + 1) * INR m * INR m
  = (INR m - INR k) * (INR (j * S j * n) - INR (k * m)).
Proof.
  intros Hj. rewrite <- n_split.
  rewrite !mult_INR, !plus_INR, (S_INR j), !minus_INR by lia. simpl (INR 1).
  ring.
Qed.

Lemma D_step_scale (j : nat) :
  (j < k)%nat ->
  let c := INR (k + j + 1) * INR m * (INR (m + j + 1) * INR k) in
  0 < c /\
  0 <= INR (m - j) * INR (m + j + 1) * INR k * INR k /\
  0 <= INR (k - j) * INR (k + j + 1) * INR m * INR m /\
  c * A (S j) = INR (m - j) * INR (m + j + 1) * INR k * INR k * A j /\
  c * E (S j) = INR (k - j) * INR (k + j + 1) * INR m * INR m * E j.
Proof.
  intros Hj c.
  assert (Hpos : forall i, (0 < i)%nat -> 0 < INR i)
    by (intros; now apply lt_0_INR).
  split; [| split; [| split; [| split]]].
  - unfold c. repeat apply Rmult_lt_0_compat; apply Hpos; lia.
  - repeat apply Rmult_le_pos; apply pos_INR.
  - repeat apply Rmult_le_pos; apply pos_INR.
  - pose proof (A_step j ltac:(lia)) as HA. unfold c.
    transitivity (INR (k + j + 1) * A (S j) * INR m
                  * (INR (m + j + 1) * INR k));
      [ring |].
    rewrite HA. ring.
  - pose proof (E_step j Hj) as HE. unfold c.
    transitivity (INR (m + j + 1) * E (S j) * INR k
                  * (INR (k + j + 1) * INR m));
      [ring |].
    rewrite <- HE. ring.
Qed.

Lemma D_before (j : nat) : T j = false -> 0 <= D j -> 0 <= D (S j).
Proof.
  intros HT HD.
  assert (Hjk : (j < k)%nat).
  { destruct (le_lt_dec k j) as [H | H]; [| assumption].
    rewrite T_true_from_k in HT by assumption. discriminate. }
  unfold T in HT. apply Nat.leb_gt, lt_INR in HT.
  destruct (D_step_scale j Hjk) as [Hc [HP [HQ [HA HE]]]].
  pose proof (D_step_gap j Hjk) as Hgap.
  assert (Hkm : INR k <= INR m) by (apply le_INR; lia).
  assert (0 <= (INR m - INR k) * (INR (k * m) - INR (j * S j * n)))
    by (apply Rmult_le_pos; lra).
  pose proof (A_nonneg j) as Ha. unfold D in *.
  enough (A (S j) <= E (S j)) by lra.
  refine (scaled_le _ _ _ _ _ _ _ Hc _ _ HA HE); split; lra.
Qed.

Lemma D_after (j : nat) : T j = true -> D j <= 0 -> D (S j) <= 0.
Proof.
  intros HT HD.
  destruct (le_lt_dec k j) as [Hkj | Hjk].
  { unfold D, E. replace (S j <=? k)%nat with false
      by (symmetry; apply Nat.leb_gt; lia).
    pose proof (A_nonneg (S j)). lra. }
  unfold T in HT. apply Nat.leb_le, le_INR in HT.
  destruct (D_step_scale j Hjk) as [Hc [HP [HQ [HA HE]]]].
  pose proof (D_step_gap j Hjk) as Hgap.
  assert (Hkm : INR k <= INR m) by (apply le_INR; lia).
  assert (0 <= (INR m - INR k) * (INR (j * S j * n) - INR (k * m)))
    by (apply Rmult_le_pos; lra).
  pose proof (E_nonneg j) as He. unfold D in *.
  enough (E (S j) <= A (S j)) by lra.
  refine (scaled_le _ _ _ _ _ _ _ Hc _ _ HE HA); split; lra.
Qed.

Lemma m_pos : (0 < m)%nat.
Proof. lia. Qed.

Lemma sum_E : sum_f_R0 E m = cdfN n k p.
Proof.
  rewrite (sum_zero_tail E k m k_le_m).
  - rewrite (sum_ext_upto E (fun j => b (k - j)%nat)).
    + rewrite sum_rev. reflexivity.
    + intros j Hj. unfold E.
      now replace (j <=? k)%nat with true by (symmetry; apply Nat.leb_le; lia).
  - intros j Hj. unfold E.
    now replace (j <=? k)%nat with false by (symmetry; apply Nat.leb_gt; lia).
Qed.

Lemma sum_A : sum_f_R0 A m = b k + 1 - cdfN n k p.
Proof.
  pose proof m_pos as Hm.
  rewrite decomp_sum by assumption.
  assert (Hfull : sum_f_R0 b (k + S (pred m)) = 1).
  { replace (k + S (pred m))%nat with n by lia.
    apply (cdfN_full n n p). lia. }
  rewrite sum_split in Hfull.
  rewrite (sum_ext_upto (fun i => A (S i)) (fun j => b (S k + j)%nat)).
  - unfold A at 1. rewrite Nat.add_0_r.
    change (cdfN n k p) with (sum_f_R0 b k). lra.
  - intros j Hj. unfold A. f_equal. lia.
Qed.

Lemma sum_weighted_E :
  sum_f_R0 (fun j => INR j * E j) m
  = sum_f_R0 (fun i => INR (k - i) * b i) k.
Proof.
  rewrite (sum_zero_tail _ k m k_le_m).
  - rewrite <- (sum_rev k (fun i => INR (k - i) * b i)).
    apply sum_ext_upto. intros j Hj. unfold E.
    replace (j <=? k)%nat with true by (symmetry; apply Nat.leb_le; lia).
    replace (k - (k - j))%nat with j by lia. reflexivity.
  - intros j Hj. unfold E.
    replace (j <=? k)%nat with false by (symmetry; apply Nat.leb_gt; lia).
    ring.
Qed.

Lemma sum_weighted_A :
  sum_f_R0 (fun j => INR j * A j) m
  = sum_f_R0 (fun j => INR (S j) * A (S j)) (pred m).
Proof.
  rewrite decomp_sum by exact m_pos. simpl (INR 0). ring.
Qed.

(** The mean is [k]: the deviations from it cancel. *)
Lemma deviations_cancel : sum_f_R0 (fun j => INR j * D j) m = 0.
Proof.
  rewrite (sum_ext_upto _ (fun j => INR j * E j - INR j * A j))
    by (intros j _; unfold D; ring).
  rewrite sum_minus, sum_weighted_E, sum_weighted_A.
  pose proof (sum_weighted (INR k) b n) as Hw.
  change (sum_f_R0 b n) with (cdfN n n p) in Hw.
  change (sum_f_R0 (fun j => INR j * b j) n) with (meanN n n p) in Hw.
  rewrite cdfN_full, meanN_full in Hw by lia.
  assert (Hn : 0 < INR n) by (apply lt_0_INR; lia).
  replace (INR k * 1 - INR n * p) with 0 in Hw by (unfold p; field; lra).
  assert (Hnk : n = (k + S (pred m))%nat) by (pose proof m_pos; lia).
  rewrite Hnk in Hw at 1.
  rewrite sum_split in Hw.
  rewrite (sum_ext_upto (fun j => (INR k - INR j) * b j)
             (fun i => INR (k - i) * b i)) in Hw
    by (intros j Hj; rewrite minus_INR by lia; reflexivity).
  rewrite (sum_ext_upto (fun j => (INR k - INR (S k + j)) * b (S k + j))
             (fun j => - (INR (S j) * A (S j)))) in Hw.
  - assert (Hopp : forall (f : nat -> R) N,
               sum_f_R0 (fun j => - f j) N = - sum_f_R0 f N).
    { intros f N. induction N as [| N IHN]; simpl; [ring | rewrite IHN; ring]. }
    rewrite Hopp in Hw. lra.
  - intros j Hj. unfold A.
    replace (k + S j)%nat with (S k + j)%nat by lia.
    rewrite (plus_INR (S k) j), !S_INR. ring.
Qed.

(** At least half of the mass lies at or below the mean. *)
Lemma half_at_or_below : 1 / 2 <= cdfN n k p.
Proof.
  pose proof (crossing_sum D T D_start D_before D_after T_mono m) as Hc.
  rewrite deviations_cancel in Hc. specialize (Hc (Rle_refl 0)).
  rewrite (sum_ext_upto D (fun j => E j - A j)) in Hc by reflexivity.
  rewrite sum_minus, sum_E, sum_A in Hc.
  pose proof (b_nonneg k). lra.
Qed.

(** Each probability below the mean is matched by a larger one at the
    same distance above it. *)
Lemma pairing (j : nat) : (S j <= k)%nat -> b (k - 1 - j) <= b (k + j).
Proof.
  induction j as [| j IH]; intros Hj.
  - rewrite Nat.sub_0_r, Nat.add_0_r.
    pose proof (b_ratio (k - 1) ltac:(lia)) as Hr.
    replace (S (k - 1)) with k in Hr by lia.
    replace (n - (k - 1))%nat with (S m) in Hr by lia.
    rewrite S_INR in Hr.
    assert (Hk : 0 < INR k) by (apply lt_0_INR; lia).
    assert (Hm : 0 < INR m) by (apply lt_0_INR; lia).
    pose proof (b_nonneg (k - 1)) as Hb.
    assert (Heq : b k * INR m = (INR m + 1) * b (k - 1)).
    { apply Rmult_eq_reg_l with (INR k); [| lra]. lra. }
    assert (H : b (k - 1) * INR m <= b k * INR m) by nra.
    apply Rmult_le_reg_r in H; assumption.
  - specialize (IH ltac:(lia)).
    pose proof (b_ratio (k + j) ltac:(lia)) as HA.
    pose proof (b_ratio (k - 1 - S j) ltac:(lia)) as HE.
    replace (S (k - 1 - S j)) with (k - 1 - j)%nat in HE by lia.
    replace (n - (k - 1 - S j))%nat with (m + j + 2)%nat in HE by lia.
    replace (n - (k + j))%nat with (m - j)%nat in HA by lia.
    replace (S (k + j)) with (k + S j)%nat in HA by lia.
    pose proof (b_nonneg (k - 1 - j)) as Hv.
    assert (Hpos : forall i, (0 < i)%nat -> 0 < INR i)
      by (intros; now apply lt_0_INR).
    set (c := INR (k + S j) * INR m * (INR (m + j + 2) * INR k)).
    assert (Hc : 0 < c)
      by (unfold c; repeat apply Rmult_lt_0_compat; apply Hpos; lia).
    set (P := INR (k + S j) * INR (k - 1 - j) * INR m * INR m).
    set (Q := INR (m + j + 2) * INR (m - j) * INR k * INR k).
    assert (HP : 0 <= P)
      by (unfold P; repeat apply Rmult_le_pos; apply pos_INR).
    assert (HPQ : P <= Q).
    { assert (Hgap : Q - P
                     = (INR j + 1) * (INR j + 1)
                       * ((INR m - INR k) * (INR m + INR k))
                       + (2 * INR m + 1) * (INR k * INR k)).
      { unfold P, Q. rewrite !plus_INR, (S_INR j), !minus_INR by lia.
        simpl (INR 1). simpl (INR 2). ring. }
      assert (Hkm : INR k <= INR m) by (apply le_INR; lia).
      pose proof (pos_INR j). pose proof (pos_INR k). pose proof (pos_INR m).
      assert (0 <= (INR j + 1) * (INR j + 1)
                   * ((INR m - INR k) * (INR m + INR k)))
        by (repeat apply Rmult_le_pos; lra).
      assert (0 <= (2 * INR m + 1) * (INR k * INR k))
        by (repeat apply Rmult_le_pos; lra).
      lra. }
    refine (scaled_le c P Q _ _ _ _ Hc (conj HP HPQ) (conj Hv IH) _ _).
    + unfold c, P.
      transitivity (INR (m + j + 2) * b (k - 1 - S j) * INR k
                    * (INR (k + S j) * INR m)); [ring |].
      rewrite <- HE. ring.
    + unfold c, Q.
      transitivity (INR (k + S j) * b (k + S j) * INR m
                    * (INR (m + j + 2) * INR k)); [ring |].
      rewrite HA. ring.
Qed.

(** At most half of the mass lies strictly below the mean. *)
Lemma half_below : (1 <= k)%nat -> cdfN n (k - 1) p <= 1 / 2.
Proof.
  intros Hk.
  assert (Hlow : cdfN n (k - 1) p
                 = sum_f_R0 (fun j => b (k - 1 - j)%nat) (k - 1)).
  { rewrite sum_rev. reflexivity. }
  assert (Hpair : sum_f_R0 (fun j => b (k - 1 - j)%nat) (k - 1)
                  <= sum_f_R0 A (k - 1)).
  { apply sum_le_upto. intros j Hj. apply pairing. lia. }
  assert (Hgrow : sum_f_R0 A (k - 1) <= sum_f_R0 A m)
    by (apply sum_grow; [lia | apply A_nonneg]).
  assert (Hfull : sum_f_R0 b (k - 1 + S m) = 1).
  { replace (k - 1 + S m)%nat with n by lia.
    apply (cdfN_full n n p). lia. }
  rewrite sum_split in Hfull.
  rewrite (sum_ext_upto (fun j => b (S (k - 1) + j)%nat) A) in Hfull
    by (intros j Hj; unfold A; f_equal; lia).
  change (cdfN n (k - 1) p) with (sum_f_R0 b (k - 1)) in *. lra.
Qed.

End Center.

(** When the mean [k] of a binomial distribution is an integer it is a
    median: at most half of the mass lies strictly below it, and at least
    half at or below it. *)
Lemma binom_median (n k : nat) :
  (0 < n)%nat -> (k <= n)%nat ->
  ((1 <= k)%nat -> cdfN n (k - 1) (INR k / INR n) <= 1 / 2) /\
  ((k < n)%nat -> 1 / 2 <= cdfN n k (INR k / INR n)).
Proof.
  intros Hn Hk.
  assert (HnR : 0 < INR n) by (apply lt_0_INR; lia).
  destruct (le_lt_dec k (n - k)) as [Hle | Hgt].
  - split; intros Hk'.
    + apply (half_below n k (n - k)); lia.
    + apply (half_at_or_below n k (n - k)); lia.
  - assert (Hp : 1 - INR k / INR n = INR (n - k) / INR n)
      by (rewrite minus_INR by lia; field; lra).
    split; intros Hk'.
    + pose proof (cdfN_symm n (INR k / INR n) (k - 1) ltac:(lia)) as Hs.
      replace (n - (k - 1) - 1)%nat with (n - k)%nat in Hs by lia.
      rewrite Hp in Hs.
      pose proof (half_at_or_below n (n - k) k ltac:(lia) Hn ltac:(lia)).
      lra.
    + pose proof (cdfN_symm n (INR k / INR n) k Hk') as Hs.
      replace (n - k - 1)%nat with (n - k - 1)%nat in Hs by lia.
      rewrite Hp in Hs.
      pose proof (half_below n (n - k) k ltac:(lia) Hn ltac:(lia) ltac:(lia)).
      lra.
Qed.

End Median.

(** ** The binomial proportion interval *)

Section Binomial.

Context `{SciPy}.

Lemma float_overflow_above_exact : IZR FLOAT_EXACT < IZR FLOAT_OVERFLOW.
Proof. apply IZR_lt. unfold FLOAT_EXACT, FLOAT_OVERFLOW. lia. Qed.

Lemma py_truediv_ok (a b : Z) :
  b <> 0%Z -> Rabs (IZR a / IZR b) < IZR FLOAT_OVERFLOW ->
  py_truediv a b = Ok (IZR a / IZR b).
Proof.
  intros Hb Hq. unfold py_truediv.
  apply Z.eqb_neq in Hb. rewrite Hb.
  destruct (Rle_dec (IZR FLOAT_OVERFLOW) (Rabs (IZR a / IZR b))); [lra |].
  reflexivity.
Qed.

(** A quotient of two whole numbers is no larger than the numerator. *)
Lemma quotient_bounded (a b : Z) :
  b <> 0%Z -> (Z.abs a <= FLOAT_EXACT)%Z ->
  Rabs (IZR a / IZR b) < IZR FLOAT_OVERFLOW.
Proof.
  intros Hb Ha.
  apply Rle_lt_trans with (IZR FLOAT_EXACT);
    [| apply float_overflow_above_exact].
  unfold Rdiv. rewrite Rabs_mult, Rabs_inv, <- !abs_IZR.
  assert (H1 : 1 <= IZR (Z.abs b)) by (apply IZR_le; lia).
  assert (H0 : 0 <= IZR (Z.abs a)) by (apply IZR_le; lia).
  apply IZR_le in Ha.
  apply Rle_trans with (IZR (Z.abs a)); [| assumption].
  apply Rmult_le_reg_r with (IZR (Z.abs b)); [lra |].
  rewrite Rmult_assoc, Rinv_l by lra. nra.
Qed.

Lemma obsprob_range (ntot nsuc : Z) :
  (0 < ntot)%Z -> (0 <= nsuc <= ntot)%Z -> 0 <= IZR nsuc / IZR ntot <= 1.
Proof.
  intros Hn [H0 H1].
  apply IZR_lt in Hn. apply IZR_le in H0. apply IZR_le in H1.
  split.
  - apply Rmult_le_pos; [lra | apply Rlt_le, Rinv_0_lt_compat; lra].
  - apply Rmult_le_reg_r with (IZR ntot); [lra |].
    unfold Rdiv. rewrite Rmult_assoc, Rinv_l by lra. lra.
Qed.

(** The whole call, when the division returns. *)
Lemma binomialCI_run_of_quotient (ntot nsuc : Z) (alpha : R) :
  ntot <> 0%Z -> Rabs (IZR nsuc / IZR ntot) < IZR FLOAT_OVERFLOW ->
  let obsprob := IZR nsuc / IZR ntot in
  let half :=
    - norm_ppf (alpha / 2) * sqrt (obsprob * (1 - obsprob)) / sqrt (IZR ntot) in
  binomialCI ntot nsuc alpha
  = Ok ((if (nsuc =? 0)%Z then 0
         else fsolve (lower_equation ntot nsuc (alpha / 2)) obsprob,
         if (nsuc =? ntot)%Z then 1
         else fsolve (upper_equation ntot nsuc (alpha / 2)) obsprob),
        (obsprob + (-1) * half, obsprob + 1 * half)).
Proof.
  intros Hn Hq. unfold binomialCI.
  rewrite py_truediv_ok by assumption. reflexivity.
Qed.

(** The whole call, for valid counts. *)
Lemma binomialCI_run (ntot nsuc : Z) (alpha : R) :
  (0 < ntot)%Z -> (0 <= nsuc <= ntot)%Z ->
  let obsprob := IZR nsuc / IZR ntot in
  let half :=
    - norm_ppf (alpha / 2) * sqrt (obsprob * (1 - obsprob)) / sqrt (IZR ntot) in
  binomialCI ntot nsuc alpha
  = Ok ((if (nsuc =? 0)%Z then 0
         else fsolve (lower_equation ntot nsuc (alpha / 2)) obsprob,
         if (nsuc =? ntot)%Z then 1
         else fsolve (upper_equation ntot nsuc (alpha / 2)) obsprob),
        (obsprob + (-1) * half, obsprob + 1 * half)).
Proof.
  intros Hn Hk. apply binomialCI_run_of_quotient; [lia |].
  pose proof (obsprob_range ntot nsuc Hn Hk) as Hobs.
  pose proof float_overflow_above_exact as Hbig.
  assert (1 <= IZR FLOAT_EXACT) by (apply IZR_le; unfold FLOAT_EXACT; lia).
  rewrite Rabs_pos_eq; lra.
Qed.

(** *** Where the distribution function has a value *)

Lemma stats_binom_cdf_finite (k n : Z) (p y : R) :
  stats_binom_cdf k n p = Fin y -> 0 <= p <= 1 /\ y = binom_cdf k n p.
Proof.
  unfold stats_binom_cdf, binom_argcheck.
  destruct (0 <=? n)%Z; cbn [andb]; [| discriminate].
  destruct (Rle_dec 0 p); cbn [andb]; [| discriminate].
  destruct (Rle_dec p 1); [| discriminate].
  intros E. injection E as <-. split; [lra | reflexivity].
Qed.

Lemma stats_binom_cdf_inside (k n : Z) (p : R) :
  (0 <= n)%Z -> 0 <= p <= 1 ->
  stats_binom_cdf k n p = Fin (binom_cdf k n p).
Proof.
  intros Hn Hp. unfold stats_binom_cdf, binom_argcheck.
  replace (0 <=? n)%Z with true by (symmetry; apply Z.leb_le; assumption).
  destruct (Rle_dec 0 p); [| lra]. destruct (Rle_dec p 1); [| lra].
  reflexivity.
Qed.

Lemma stats_binom_cdf_beyond (k n : Z) (p : R) :
  1 < p -> stats_binom_cdf k n p = NaN.
Proof.
  intros Hp. unfold stats_binom_cdf, binom_argcheck.
  destruct (Rle_dec p 1); [lra |]. now rewrite andb_false_r.
Qed.

Lemma lower_equation_finite (ntot nsuc : Z) (al2 x y : R) :
  lower_equation ntot nsuc al2 x = Fin y ->
  0 <= x <= 1 /\ y = binom_cdf (nsuc - 1) ntot x - 1 + al2.
Proof.
  unfold lower_equation. intros E.
  destruct (stats_binom_cdf (nsuc - 1) ntot x) as [c | | |] eqn:Ec;
    cbn [np_minus np_plus] in E; try discriminate.
  injection E as <-.
  destruct (stats_binom_cdf_finite _ _ _ _ Ec) as [Hx ->]. now split.
Qed.

Lemma upper_equation_finite (ntot nsuc : Z) (al2 x y : R) :
  upper_equation ntot nsuc al2 x = Fin y ->
  0 <= x <= 1 /\ y = binom_cdf nsuc ntot x - al2.
Proof.
  unfold upper_equation. intros E.
  destruct (stats_binom_cdf nsuc ntot x) as [c | | |] eqn:Ec;
    cbn [np_minus] in E; try discriminate.
  injection E as <-.
  destruct (stats_binom_cdf_finite _ _ _ _ Ec) as [Hx ->]. now split.
Qed.

Lemma lower_equation_beyond (ntot nsuc : Z) (al2 x : R) :
  1 < x -> lower_equation ntot nsuc al2 x = NaN.
Proof.
  intros Hx. unfold lower_equation.
  now rewrite stats_binom_cdf_beyond by assumption.
Qed.

Lemma lower_equation_inside (ntot nsuc : Z) (al2 x : R) :
  (0 <= ntot)%Z -> 0 <= x <= 1 ->
  lower_equation ntot nsuc al2 x
  = Fin (binom_cdf (nsuc - 1) ntot x - 1 + al2).
Proof.
  intros Hn Hx. unfold lower_equation.
  now rewrite stats_binom_cdf_inside by assumption.
Qed.

Lemma upper_equation_inside (ntot nsuc : Z) (al2 x : R) :
  (0 <= ntot)%Z -> 0 <= x <= 1 ->
  upper_equation ntot nsuc al2 x = Fin (binom_cdf nsuc ntot x - al2).
Proof.
  intros Hn Hx. unfold upper_equation.
  now rewrite stats_binom_cdf_inside by assumption.
Qed.

(** *** No failure: the solver is started at the edge of the domain *)

(** With as many successes as trials both intervals are [1, 1]: the
    lower bound is sought from the seed 1, beyond which the distribution
    function has no value, and the solver returns the seed. *)
Lemma binomialCI_all_successes (ntot : Z) (alpha : R) :
  fsolve_needs_a_slope -> (0 < ntot)%Z ->
  binomialCI ntot ntot alpha = Ok ((1, 1), (1, 1)).
Proof.
  intros Hstall Hn.
  assert (HnR : 0 < IZR ntot) by (apply IZR_lt; lia).
  rewrite binomialCI_run by lia. cbv zeta.
  rewrite Z.eqb_refl.
  replace (ntot =? 0)%Z with false by (symmetry; apply Z.eqb_neq; lia).
  replace (IZR ntot / IZR ntot) with 1 by (field; lra).
  rewrite Hstall by (intros x Hx; now apply lower_equation_beyond).
  replace (1 * (1 - 1)) with 0 by ring. rewrite sqrt_0.
  f_equal. f_equal. f_equal; field; apply Rgt_not_eq, sqrt_lt_R0, HnR.
Qed.

(** C3, the failing input in general: with no failure the call returns the
    lower bound 1, the seed that the solver was given; 1 does not solve
    [BinomCDF(nTotal - 1; nTotal, p) = 1 - alpha/2], although exactly one
    [p] of (0,1) does. *)
Theorem binomialCI_lower_bound_misses_root (ntot : Z) (alpha : R) :
  fsolve_needs_a_slope ->
  (0 < ntot)%Z -> 0 < alpha < 1 ->
  (exists pup cltci, binomialCI ntot ntot alpha = Ok ((1, pup), cltci)) /\
  binom_cdf (ntot - 1) ntot 1 <> 1 - alpha / 2 /\
  exists p, 0 < p < 1 /\
            binom_cdf (ntot - 1) ntot p = 1 - alpha / 2 /\
            forall q, 0 < q < 1 ->
                      binom_cdf (ntot - 1) ntot q = 1 - alpha / 2 -> q = p.
Proof.
  intros Hstall Hn Ha. split; [| split].
  - exists 1, (1, 1). now apply binomialCI_all_successes.
  - rewrite binom_cdf_cdfN by lia. rewrite cdfN_at_1 by lia. lra.
  - apply binom_cdf_unique_root; [lia | lra].
Qed.

(** The common value of the two half-widths at a count large enough for
    the Wald interval to leave the unit interval. *)
Lemma wald_half_exceeds (z N : R) :
  1 < z -> 1 < N -> z * z / (z * z - 1) < N ->
  1 / N < z * sqrt (1 / N * (1 - 1 / N) / N).
Proof.
  intros Hz HN Hbig.
  set (a := 1 / N * (1 - 1 / N) / N).
  assert (HNpos : 0 < / N) by (apply Rinv_0_lt_compat; lra).
  assert (Hz2 : 0 < z * z - 1) by nra.
  assert (Hkey : N < z * z * (N - 1)).
  { apply Rmult_lt_compat_r with (r := z * z - 1) in Hbig; [| assumption].
    unfold Rdiv in Hbig. rewrite Rmult_assoc, Rinv_l in Hbig by lra. lra. }
  assert (Ha : a = (N - 1) * (/ N * / N * / N)) by (unfold a; field; lra).
  assert (Hapos : 0 <= a).
  { rewrite Ha. apply Rmult_le_pos; [lra |].
    apply Rlt_le. repeat apply Rmult_lt_0_compat; assumption. }
  pose proof (sqrt_sqrt a Hapos) as Hss.
  pose proof (sqrt_pos a) as Hsp.
  destruct (Rlt_le_dec (1 / N) (z * sqrt a)) as [Hlt | Hge]; [assumption |].
  exfalso.
  assert (Hsq : z * sqrt a * (z * sqrt a) <= 1 / N * (1 / N)).
  { apply Rmult_le_compat; nra. }
  replace (z * sqrt a * (z * sqrt a)) with (z * z * a) in Hsq
    by (rewrite <- Hss at 1; ring).
  rewrite Ha in Hsq.
  assert (Hcube : 0 < N * N * N) by (repeat apply Rmult_lt_0_compat; lra).
  apply Rmult_le_compat_r with (r := N * N * N) in Hsq; [| lra].
  replace (z * z * ((N - 1) * (/ N * / N * / N)) * (N * N * N))
    with (z * z * (N - 1)) in Hsq by (field; lra).
  replace (1 / N * (1 / N) * (N * N * N)) with N in Hsq by (field; lra).
  lra.
Qed.

(** C6: for a valid call the interval of the normal approximation is
    [obsProb -/+ (- Phi^-1(alpha/2)) * sqrt(obsProb * (1 - obsProb) / nTotal)],
    and nothing clips it to the unit interval: at a level whose normal
    quantile is below -1 there are valid counts for which the lower end is
    negative, and valid counts for which the upper end exceeds 1. *)
Theorem binomialCI_clt_interval (alpha : R) :
  0 < alpha < 1 ->
  (forall ntot nsuc : Z,
      (0 < ntot)%Z -> (0 <= nsuc <= ntot)%Z ->
      let obsProb := IZR nsuc / IZR ntot in
      let half :=
        - norm_ppf (alpha / 2) * sqrt (obsProb * (1 - obsProb) / IZR ntot) in
      exists exactci,
        binomialCI ntot nsuc alpha
        = Ok (exactci, (obsProb - half, obsProb + half)))
  /\
  (norm_ppf (alpha / 2) < -1 ->
   (exists ntot nsuc exactci lo hi,
       (0 < ntot)%Z /\ (0 <= nsuc <= ntot)%Z /\
       binomialCI ntot nsuc alpha = Ok (exactci, (lo, hi)) /\ lo < 0) /\
   (exists ntot nsuc exactci lo hi,
       (0 < ntot)%Z /\ (0 <= nsuc <= ntot)%Z /\
       binomialCI ntot nsuc alpha = Ok (exactci, (lo, hi)) /\ 1 < hi)).
Proof.
  intros Ha.
  assert (Hform : forall ntot nsuc : Z,
      (0 < ntot)%Z -> (0 <= nsuc <= ntot)%Z ->
      let obsProb := IZR nsuc / IZR ntot in
      let half :=
        - norm_ppf (alpha / 2) * sqrt (obsProb * (1 - obsProb) / IZR ntot) in
      exists exactci,
        binomialCI ntot nsuc alpha
        = Ok (exactci, (obsProb - half, obsProb + half))).
  { intros ntot nsuc Hn Hk obsProb half.
    rewrite binomialCI_run by lia. cbv zeta. fold obsProb.
    eexists. f_equal. f_equal.
    assert (Hhalf : - norm_ppf (alpha / 2) * sqrt (obsProb * (1 - obsProb))
                    / sqrt (IZR ntot) = half).
    { unfold half. rewrite sqrt_div_alt by (apply IZR_lt in Hn; lra).
      unfold Rdiv. ring. }
    rewrite Hhalf. f_equal; ring. }
  split; [exact Hform |].
  intros Hz.
  set (z := - norm_ppf (alpha / 2)) in *.
  assert (Hz1 : 1 < z) by (unfold z; lra).
  set (N := Z.max 2 (up (z * z / (z * z - 1)))).
  assert (HN2 : (2 <= N)%Z) by (unfold N; lia).
  assert (HNbig : z * z / (z * z - 1) < IZR N).
  { destruct (archimed (z * z / (z * z - 1))) as [Hup _].
    apply Rlt_le_trans with (IZR (up (z * z / (z * z - 1)))); [lra |].
    apply IZR_le. unfold N. lia. }
  assert (HN1 : 1 < IZR N) by (apply IZR_lt; lia).
  pose proof (wald_half_exceeds z (IZR N) Hz1 HN1 HNbig) as Hw.
  split.
  - destruct (Hform N 1%Z) as [ex Hex]; [lia | lia |].
    cbv zeta in Hex. fold z in Hex.
    exists N, 1%Z, ex. eexists. eexists.
    split; [lia |]. split; [lia |]. split; [exact Hex |].
    lra.
  - destruct (Hform N (N - 1)%Z) as [ex Hex]; [lia | lia |].
    cbv zeta in Hex. fold z in Hex.
    exists N, (N - 1)%Z, ex. eexists. eexists.
    split; [lia |]. split; [lia |]. split; [exact Hex |].
    rewrite minus_IZR.
    replace ((IZR N - 1) / IZR N * (1 - (IZR N - 1) / IZR N) / IZR N)
      with (1 / IZR N * (1 - 1 / IZR N) / IZR N) by (field; lra).
    replace ((IZR N - 1) / IZR N) with (1 - 1 / IZR N) by (field; lra).
    lra.
Qed.

(** C10, the failing input in general: with no success the interval of
    the normal approximation is [0, 0] and the exact lower bound is 0;
    with no failure the interval of the normal approximation is [1, 1],
    and so is the exact interval, of zero width: its lower bound is the
    seed 1 that the solver returns. *)
Theorem binomialCI_extreme_counts (ntot : Z) (alpha : R) :
  fsolve_needs_a_slope ->
  (0 < ntot)%Z ->
  (exists pup, binomialCI ntot 0 alpha = Ok ((0, pup), (0, 0))) /\
  binomialCI ntot ntot alpha = Ok ((1, 1), (1, 1)).
Proof.
  intros Hstall Hn.
  assert (HnR : 0 < IZR ntot) by (apply IZR_lt; lia).
  split.
  - rewrite binomialCI_run by lia. cbv zeta.
    rewrite Z.eqb_refl.
    eexists. f_equal. f_equal.
    replace (0 / IZR ntot) with 0 by (field; lra).
    replace (0 * (1 - 0)) with 0 by ring. rewrite sqrt_0.
    f_equal; field; apply Rgt_not_eq, sqrt_lt_R0, HnR.
  - now apply binomialCI_all_successes.
Qed.

Lemma obsprob_as_nat (ntot nsuc : Z) :
  (0 < ntot)%Z -> (0 <= nsuc)%Z ->
  IZR nsuc / IZR ntot = INR (Z.to_nat nsuc) / INR (Z.to_nat ntot).
Proof.
  intros Hn Hk. now rewrite !INR_IZR_INZ, !Z2Nat.id by lia.
Qed.

(** *** The exact interval and the observed proportion *)

(** A solver that only moves to points with a smaller residual keeps the
    lower bound at or below the observed proportion and the upper bound
    at or above it: at the proportion the lower function is negative and
    the upper one positive (an integer mean of a binomial distribution is
    a median), and both functions decrease. *)
Lemma binomialCI_brackets (ntot nsuc : Z) (alpha : R) :
  fsolve_descends ->
  (0 < ntot)%Z -> (0 <= nsuc <= ntot)%Z -> 0 < alpha < 1 ->
  exists lo hi cltci,
    binomialCI ntot nsuc alpha = Ok ((lo, hi), cltci) /\
    0 <= lo <= IZR nsuc / IZR ntot /\
    IZR nsuc / IZR ntot <= hi <= 1 /\
    (nsuc = 0%Z -> lo = 0 /\ cltci = (0, 0)) /\
    (nsuc = ntot -> hi = 1 /\ cltci = (1, 1)).
Proof.
  intros Hdesc Hn Hk Ha.
  rewrite binomialCI_run by lia. cbv zeta.
  eexists. eexists. eexists. split; [reflexivity |].
  pose proof (obsprob_range ntot nsuc Hn Hk) as Hobs.
  pose proof (obsprob_as_nat ntot nsuc Hn ltac:(lia)) as Hnat.
  assert (Hn' : 0 < IZR ntot) by (apply IZR_lt; assumption).
  destruct (Median.binom_median (Z.to_nat ntot) (Z.to_nat nsuc))
    as [Hbelow Hupto]; [lia | lia |].
  rewrite <- Hnat in Hbelow, Hupto. clear Hnat.
  split; [| split; [| split]].
  - set (obs := IZR nsuc / IZR ntot) in *.
    destruct (Z.eqb_spec nsuc 0) as [E | NE]; [lra |].
    destruct (Hdesc (lower_equation ntot nsuc (alpha / 2)) obs)
      as [Estay | [y0 [y [E0 [Ey Hlt]]]]]; [rewrite Estay; lra |].
    set (lo := fsolve (lower_equation ntot nsuc (alpha / 2)) obs) in *.
    destruct (lower_equation_finite _ _ _ _ _ Ey) as [Hlo ->].
    destruct (lower_equation_finite _ _ _ _ _ E0) as [_ ->].
    split; [lra |].
    destruct (Rle_lt_dec lo obs) as [Hle | Hgt]; [assumption | exfalso].
    rewrite !binom_cdf_cdfN in Hlt by lia.
    replace (Z.to_nat (nsuc - 1)) with (Z.to_nat nsuc - 1)%nat in Hlt by lia.
    pose proof (cdfN_decreasing (Z.to_nat ntot) (Z.to_nat nsuc - 1)
                  obs lo ltac:(lra) ltac:(lra) ltac:(lra)) as Hd.
    specialize (Hbelow ltac:(lia)).
    rewrite !Rabs_left in Hlt by lra. lra.
  - set (obs := IZR nsuc / IZR ntot) in *.
    destruct (Z.eqb_spec nsuc ntot) as [E | NE]; [lra |].
    destruct (Hdesc (upper_equation ntot nsuc (alpha / 2)) obs)
      as [Estay | [y0 [y [E0 [Ey Hlt]]]]]; [rewrite Estay; lra |].
    set (hi := fsolve (upper_equation ntot nsuc (alpha / 2)) obs) in *.
    destruct (upper_equation_finite _ _ _ _ _ Ey) as [Hhi ->].
    destruct (upper_equation_finite _ _ _ _ _ E0) as [_ ->].
    split; [| lra].
    destruct (Rle_lt_dec obs hi) as [Hle | Hgt]; [assumption | exfalso].
    rewrite !binom_cdf_cdfN in Hlt by lia.
    pose proof (cdfN_decreasing (Z.to_nat ntot) (Z.to_nat nsuc)
                  hi obs ltac:(lra) ltac:(lra) ltac:(lra)) as Hd.
    specialize (Hupto ltac:(lia)).
    rewrite !Rabs_pos_eq in Hlt by lra. lra.
  - intros E. subst nsuc. cbn [Z.eqb]. split; [reflexivity |].
    assert (Hs : 0 < sqrt (IZR ntot)) by (apply sqrt_lt_R0; assumption).
    replace (0 / IZR ntot) with 0 by (field; lra).
    rewrite Rmult_0_l, sqrt_0. f_equal; field; lra.
  - intros E. subst nsuc. rewrite Z.eqb_refl. split; [reflexivity |].
    assert (Hs : 0 < sqrt (IZR ntot)) by (apply sqrt_lt_R0; assumption).
    replace (IZR ntot / IZR ntot) with 1 by (field; lra).
    replace (1 * (1 - 1)) with 0 by ring. rewrite sqrt_0.
    f_equal; field; lra.
Qed.

(** X30: for a valid call the exact interval contains the observed
    proportion and lies in the unit interval: [0 <= lo <= obsProb <= hi
    <= 1], with [lo = 0] when there is no success and [hi = 1] when there
    is no failure.  Of the solver only this is used: it returns its seed
    or a point where the residual is a number of smaller magnitude. *)
Theorem binomialCI_contains_proportion (ntot nsuc : Z) (alpha : R) :
  fsolve_descends ->
  (0 < ntot)%Z -> (0 <= nsuc <= ntot)%Z -> 0 < alpha < 1 ->
  exists lo hi cltci,
    binomialCI ntot nsuc alpha = Ok ((lo, hi), cltci) /\
    0 <= lo /\ lo <= IZR nsuc / IZR ntot /\
    IZR nsuc / IZR ntot <= hi /\ hi <= 1 /\
    (nsuc = 0%Z -> lo = 0) /\
    (nsuc = ntot -> hi = 1).
Proof.
  intros Hdesc Hn Hk Ha.
  destruct (binomialCI_brackets ntot nsuc alpha Hdesc Hn Hk Ha)
    as [lo [hi [clt [Hrun [Hlo [Hhi [H0 H1]]]]]]].
  exists lo, hi, clt. split; [exact Hrun |].
  repeat split; try lra.
  - intros E. now apply H0.
  - intros E. now apply H1.
Qed.

End Binomial.

(** ** The quantile interval *)


Lemma insert_sorted_perm (x : R) (l : list R) :
  Permutation (insert_sorted x l) (x :: l).
Proof.
  induction l as [| y l IH]; simpl; [apply Permutation_refl |].
  destruct (Rle_dec x y); [apply Permutation_refl |].
  eapply Permutation_trans; [apply perm_skip, IH | apply perm_swap].
Qed.

Lemma sorted_perm (l : list R) : Permutation (sorted l) l.
Proof.
  induction l as [| x l IH]; simpl; [constructor |].
  eapply Permutation_trans; [apply insert_sorted_perm | now apply perm_skip].
Qed.

Lemma sorted_length (l : list R) : length (sorted l) = length l.
Proof. apply Permutation_length, sorted_perm. Qed.

Lemma insert_sorted_hdrel (a x : R) (l : list R) :
  a <= x -> HdRel Rle a l -> HdRel Rle a (insert_sorted x l).
Proof.
  intros Hax Hl. destruct l as [| y l]; simpl; [now constructor |].
  destruct (Rle_dec x y); constructor; [assumption |].
  now inversion Hl.
Qed.

Lemma insert_sorted_sorted (x : R) (l : list R) :
  Sorted Rle l -> Sorted Rle (insert_sorted x l).
Proof.
  induction l as [| y l IH]; intros Hs; simpl.
  - repeat constructor.
  - destruct (Rle_dec x y) as [Hle | Hgt].
    + constructor; [assumption | now constructor].
    + inversion Hs as [| ? ? Hs' Hhd]; subst.
      constructor; [now apply IH |].
      apply insert_sorted_hdrel; [lra | assumption].
Qed.

Lemma sorted_sorted (l : list R) : Sorted Rle (sorted l).
Proof.
  induction l as [| x l IH]; simpl; [constructor |].
  now apply insert_sorted_sorted.
Qed.

Lemma skipn_repeat (c : R) (n m : nat) :
  skipn n (repeat c (n + m)) = repeat c m.
Proof. induction n as [| n IH]; [reflexivity | exact IH]. Qed.

(** The array is the lower extreme, the sorted sample, the upper
    extreme. *)
Lemma Xorder_of_eq (X : list R) (e : R * R) :
  Xorder_of X e = fst e :: sorted X ++ [snd e].
Proof.
  unfold Xorder_of, np_zeros, setitem, setslice.
  set (n := length X).
  replace (n + 2)%nat with (S (S n)) by lia.
  replace (n + 1)%nat with (S n) by lia.
  cbn [repeat firstn skipn app].
  replace (skipn n (0 :: repeat 0 n)) with [0].
  2:{ replace (0 :: repeat 0 n) with (repeat 0 (n + 1)).
      - now rewrite skipn_repeat.
      - replace (n + 1)%nat with (S n) by lia. reflexivity. }
  assert (Hlen : length (sorted X) = n) by apply sorted_length.
  rewrite firstn_app, Hlen, Nat.sub_diag, firstn_all2 by lia.
  cbn [firstn]. rewrite app_nil_r.
  change (match sorted X ++ [0] with [] => [] | _ :: l => skipn n l end)
    with (skipn (S n) (sorted X ++ [0])).
  rewrite skipn_all2 by (rewrite length_app; simpl; lia).
  reflexivity.
Qed.

Lemma Xorder_of_length (X : list R) (e : R * R) :
  length (Xorder_of X e) = (length X + 2)%nat.
Proof.
  rewrite Xorder_of_eq. cbn [length]. rewrite length_app, sorted_length.
  simpl. lia.
Qed.

Lemma getitem_inside (a : list R) (i : nat) :
  (i < length a)%nat -> getitem a (Z.of_nat i) = Ok (nth i a 0).
Proof.
  intros Hi. unfold getitem.
  replace ((0 <=? Z.of_nat i) && (Z.of_nat i <? Z.of_nat (length a)))%Z
    with true.
  - now rewrite Nat2Z.id.
  - symmetry. apply andb_true_iff.
    split; [apply Z.leb_le | apply Z.ltb_lt]; lia.
Qed.

Lemma getitem_past_end (a : list R) (i : Z) :
  (Z.of_nat (length a) <= i)%Z -> getitem a i = Raise IndexError.
Proof.
  intros Hi. unfold getitem.
  replace (i <? Z.of_nat (length a))%Z with false
    by (symmetry; apply Z.ltb_ge; lia).
  replace (i <? 0)%Z with false by (symmetry; apply Z.ltb_ge; lia).
  now rewrite !andb_false_r.
Qed.

Lemma ppf_search_spec (q : R) (n : nat) (p : R) :
  forall fuel k,
    let r := ppf_search q (Z.of_nat n) p fuel k in
    (k <= r <= k + fuel)%nat /\
    ((r < k + fuel)%nat -> q <= cdfN n r p) /\
    (forall i, (k <= i < r)%nat -> cdfN n i p < q).
Proof.
  induction fuel as [| fuel IH]; intros k; cbn [ppf_search].
  - split; [lia |]. split; [lia |]. intros i Hi. lia.
  - rewrite binom_cdf_cdfN, !Nat2Z.id by lia.
    destruct (Rle_dec q (cdfN n k p)) as [Hle | Hgt].
    + split; [lia |]. split; [trivial |]. intros i Hi. lia.
    + specialize (IH (S k)). cbv zeta in IH.
      destruct IH as [Hr [Hq Hbelow]].
      split; [lia |]. split.
      * intros Hlt. apply Hq. lia.
      * intros i Hi. destruct (Nat.eq_dec i k) as [-> | Hne]; [lra |].
        apply Hbelow. lia.
Qed.

(** Inside its domain [binom.ppf] is the quantile. *)
Lemma binom_ppf_valid (q : R) (n : nat) (p : R) :
  0 < q < 1 -> 0 <= p <= 1 ->
  exists k, binom_ppf q (Z.of_nat n) p = Fin (INR k) /\
            is_binom_quantile q n p k.
Proof.
  intros Hq Hp. unfold binom_ppf, binom_argcheck.
  destruct (Req_dec_T q 0); [lra |].
  replace (0 <=? Z.of_nat n)%Z with true by (symmetry; apply Z.leb_le; lia).
  destruct (Rle_dec 0 p); [| lra]. destruct (Rle_dec p 1); [| lra].
  cbn [andb].
  destruct (Req_dec_T q 1); [lra |].
  destruct (Rlt_dec 0 q); [| lra]. destruct (Rlt_dec q 1); [| lra].
  rewrite Nat2Z.id.
  exists (ppf_search q (Z.of_nat n) p n 0). split; [reflexivity |].
  pose proof (ppf_search_spec q n p n 0) as Hs. cbv zeta in Hs.
  destruct Hs as [Hr [Hreach Hbelow]].
  set (kq := ppf_search q (Z.of_nat n) p n 0) in *.
  split; [lia |]. split.
  - destruct (Nat.eq_dec kq n) as [-> | Hne].
    + rewrite cdfN_full by lia. lra.
    + apply Hreach. lia.
  - intros i Hi. apply Hbelow. lia.
Qed.

Lemma is_binom_quantile_unique (q : R) (n : nat) (p : R) (k k' : nat) :
  is_binom_quantile q n p k -> is_binom_quantile q n p k' -> k = k'.
Proof.
  intros [_ [H1 H2]] [_ [H1' H2']].
  destruct (Nat.lt_trichotomy k k') as [Hlt | [Heq | Hgt]]; [| assumption |].
  - specialize (H2' k Hlt). lra.
  - specialize (H2 k' Hgt). lra.
Qed.

Lemma astype_int_index (c : Z) (k : nat) :
  (0 <= c)%Z -> (c + Z.of_nat k <= INT64_MAX)%Z ->
  astype_int (np_add_int c (Fin (INR k))) = (c + Z.of_nat k)%Z.
Proof.
  intros Hc Hfit. cbn [np_add_int].
  rewrite INR_IZR_INZ, <- plus_IZR.
  apply astype_int_IZR. unfold INT64_MIN. lia.
Qed.

(** The run of [quantileCI] for a valid level and quantile: the two
    positions, and what reading them gives. *)
Lemma quantileCI_run (quant : R) (X : list R) (e : R * R) (alpha : R) :
  0 < quant < 1 -> 0 < alpha < 1 ->
  (Z.of_nat (length X) + 2 <= INT64_MAX)%Z ->
  exists kl ku,
    is_binom_quantile (alpha / 2) (length X) quant kl /\
    is_binom_quantile (1 - alpha / 2) (length X) quant ku /\
    quantileCI quant X e alpha
    = (b <- getitem (Xorder_of X e) (2 + Z.of_nat ku) ;;
       Ok (nth (1 + kl) (Xorder_of X e) 0, b)).
Proof.
  intros Hq Ha Hsize.
  destruct (binom_ppf_valid (alpha / 2) (length X) quant) as [kl [Ekl Hkl]];
    [lra | lra |].
  destruct (binom_ppf_valid (1 - alpha / 2) (length X) quant) as [ku [Eku Hku]];
    [lra | lra |].
  exists kl, ku. split; [assumption |]. split; [assumption |].
  unfold quantileCI. rewrite Ekl, Eku.
  assert (Hkln : (kl <= length X)%nat) by apply Hkl.
  assert (Hkun : (ku <= length X)%nat) by apply Hku.
  rewrite !astype_int_index by lia.
  replace (1 + Z.of_nat kl)%Z with (Z.of_nat (1 + kl)) by lia.
  rewrite getitem_inside by (rewrite Xorder_of_length; lia).
  reflexivity.
Qed.

(** C2, as the code has it: for a valid level and quantile, both levels
    [alpha/2] and [1 - alpha/2] being resolved by the floating-point
    numbers (no value of the distribution function within [2^-20] of
    either), the array [Xorder] has length [n + 2], with the lower extreme
    first, the sample in ascending order next and the upper extreme last;
    the lower position is [1 + kl] and the upper one [2 + ku], where [kl]
    and [ku] are the binomial quantiles at [alpha/2] and [1 - alpha/2]; and
    when the upper position is at most [n + 1] the call returns the two
    entries at these positions.  No position is clamped. *)
Theorem quantileCI_order_statistics
    (quant : R) (X : list R) (e : R * R) (alpha : R) :
  0 < quant < 1 -> 0 < alpha < 1 ->
  (Z.of_nat (length X) + 2 <= INT64_MAX)%Z ->
  resolved_level (alpha / 2) (length X) quant ->
  resolved_level (1 - alpha / 2) (length X) quant ->
  let n := length X in
  exists (Xorder : list R) (kl ku : nat),
    Xorder = fst e :: sorted X ++ [snd e] /\
    length Xorder = (n + 2)%nat /\
    Permutation (sorted X) X /\
    Sorted Rle (sorted X) /\
    is_binom_quantile (alpha / 2) n quant kl /\
    is_binom_quantile (1 - alpha / 2) n quant ku /\
    ((2 + ku <= n + 1)%nat ->
     quantileCI quant X e alpha
     = Ok (nth (1 + kl) Xorder 0, nth (2 + ku) Xorder 0)).
Proof.
  intros Hq Ha Hsize _ _ n.
  destruct (quantileCI_run quant X e alpha Hq Ha Hsize)
    as [kl [ku [Hkl [Hku Hrun]]]].
  exists (Xorder_of X e), kl, ku.
  split; [apply Xorder_of_eq |].
  split; [apply Xorder_of_length |].
  split; [apply sorted_perm |].
  split; [apply sorted_sorted |].
  split; [assumption |]. split; [assumption |].
  intros Hin. rewrite Hrun.
  replace (2 + Z.of_nat ku)%Z with (Z.of_nat (2 + ku)) by lia.
  rewrite getitem_inside by (rewrite Xorder_of_length; fold n; lia).
  reflexivity.
Qed.

Lemma binom_n_n (n : nat) : binom n n = 1%nat.
Proof.
  induction n as [| n IH]; [reflexivity |].
  cbn [binom]. rewrite IH, binom_gt by lia. reflexivity.
Qed.

Lemma cdfN_before_last (n : nat) (p : R) : cdfN (S n) n p = 1 - p ^ S n.
Proof.
  pose proof (cdfN_full (S n) (S n) p (le_n _)) as Hfull.
  rewrite cdfN_step in Hfull. unfold binom_pmf in Hfull.
  rewrite binom_n_n, Nat.sub_diag in Hfull. simpl in Hfull. simpl. lra.
Qed.

(** When [quant ^ n] exceeds [alpha / 2] the upper quantile is [n], the
    upper position is [n + 2], one past the end of the array, and reading
    it raises. *)
Lemma quantileCI_upper_overrun
    (quant : R) (X : list R) (e : R * R) (alpha : R) :
  0 < quant < 1 -> 0 < alpha < 1 ->
  (Z.of_nat (length X) + 2 <= INT64_MAX)%Z ->
  alpha / 2 < quant ^ length X ->
  quantileCI quant X e alpha = Raise IndexError.
Proof.
  intros Hq Ha Hsize Hsmall.
  destruct (quantileCI_run quant X e alpha Hq Ha Hsize)
    as [kl [ku [Hkl [Hku Hrun]]]].
  rewrite Hrun.
  assert (Hku_n : ku = length X).
  { destruct Hku as [Hle [Hreach _]].
    destruct (Nat.eq_dec ku (length X)) as [E | Hne]; [assumption |].
    exfalso. destruct (length X) as [| m] eqn:Elen; [lia |].
    assert (Hmono : cdfN (S m) ku quant <= cdfN (S m) m quant)
      by (apply cdfN_mono_j; [lra | lia]).
    rewrite cdfN_before_last in Hmono. lra. }
  rewrite getitem_past_end; [reflexivity |].
  rewrite Xorder_of_length. lia.
Qed.

(** With [alpha = 2] the two levels are 1 and 0, the positions are [n + 1]
    and 1, and the call returns the upper extreme followed by the entry at
    position 1. *)
Lemma quantileCI_alpha_2 (quant : R) (X : list R) (e : R * R) :
  0 <= quant <= 1 ->
  (Z.of_nat (length X) + 2 <= INT64_MAX)%Z ->
  quantileCI quant X e 2 = Ok (snd e, nth 1 (fst e :: sorted X ++ [snd e]) 0).
Proof.
  intros Hq Hsize. unfold quantileCI.
  replace (2 / 2) with 1 by field. replace (1 - 1) with 0 by ring.
  unfold binom_ppf, binom_argcheck.
  destruct (Req_dec_T 1 0); [lra |].
  destruct (Req_dec_T 0 0) as [_ | N]; [| now elim N].
  replace (0 <=? Z.of_nat (length X))%Z with true
    by (symmetry; apply Z.leb_le; lia).
  destruct (Rle_dec 0 quant); [| lra]. destruct (Rle_dec quant 1); [| lra].
  cbn [andb]. destruct (Req_dec_T 1 1) as [_ | N]; [| now elim N].
  cbn [np_add_int].
  rewrite <- plus_IZR. replace (IZR 2 + -1) with (IZR 1) by lra.
  rewrite !astype_int_IZR by (unfold INT64_MIN, INT64_MAX in *; lia).
  replace (1 + Z.of_nat (length X))%Z with (Z.of_nat (length X + 1)) by lia.
  change 1%Z with (Z.of_nat 1).
  rewrite !getitem_inside by (rewrite Xorder_of_length; lia).
  cbn [bind]. rewrite Xorder_of_eq.
  f_equal. f_equal.
  replace (length X + 1)%nat with (S (length X)) by lia. cbn [nth].
  rewrite app_nth2 by (rewrite sorted_length; lia).
  rewrite sorted_length, Nat.sub_diag. reflexivity.
Qed.

(** Reading an array returns an entry or raises [IndexError]. *)
Lemma getitem_cases (a : list R) (i : Z) :
  (exists v, getitem a i = Ok v) \/ getitem a i = Raise IndexError.
Proof.
  unfold getitem. cbv zeta.
  destruct ((0 <=? i) && (i <? Z.of_nat (length a)))%Z;
    [left; eexists; reflexivity |].
  destruct ((- Z.of_nat (length a) <=? i) && (i <? 0))%Z;
    [left; eexists; reflexivity | now right].
Qed.

Lemma quantileCI_cases (quant : R) (X : list R) (e : R * R) (alpha : R) :
  (exists v, quantileCI quant X e alpha = Ok v)
  \/ quantileCI quant X e alpha = Raise IndexError.
Proof.
  unfold quantileCI. cbv zeta.
  destruct (getitem_cases (Xorder_of X e)
              (astype_int
                 (np_add_int 1
                    (binom_ppf (alpha / 2) (Z.of_nat (length X)) quant))))
    as [[a ->] | ->]; [| now right].
  destruct (getitem_cases (Xorder_of X e)
              (astype_int
                 (np_add_int 2
                    (binom_ppf (1 - alpha / 2) (Z.of_nat (length X)) quant))))
    as [[b ->] | ->]; [| now right].
  left. eexists. reflexivity.
Qed.

(** C5, as the code has it: neither routine checks its configuration and
    neither raises a domain error.  [binomialCI], called with Python
    integers of magnitude at most [2^53], returns two intervals for every
    level and every number of successes when the number of trials is not
    zero, and raises [ZeroDivisionError], the error of the division, when
    it is zero.  [quantileCI], called with the level 2 and any quantile of
    the closed unit interval, returns the upper extreme followed by the
    entry at position 1; and whatever its arguments it returns a pair or
    raises [IndexError], the error of reading the array. *)
Theorem no_configuration_check `{SciPy} :
  (forall (ntot nsuc : Z) (alpha : R),
      (Z.abs ntot <= FLOAT_EXACT)%Z -> (Z.abs nsuc <= FLOAT_EXACT)%Z ->
      (ntot <> 0%Z ->
       exists exactci cltci,
         binomialCI ntot nsuc alpha = Ok (exactci, cltci)) /\
      (ntot = 0%Z ->
       binomialCI ntot nsuc alpha = Raise ZeroDivisionError))
  /\
  (forall (quant : R) (X : list R) (e : R * R),
      0 <= quant <= 1 ->
      (Z.of_nat (length X) + 2 <= INT64_MAX)%Z ->
      quantileCI quant X e 2
      = Ok (snd e, nth 1 (fst e :: sorted X ++ [snd e]) 0))
  /\
  (forall (quant : R) (X : list R) (e : R * R) (alpha : R),
      (exists v, quantileCI quant X e alpha = Ok v)
      \/ quantileCI quant X e alpha = Raise IndexError).
Proof.
  split; [| split].
  - intros ntot nsuc alpha Hbn Hbk. split.
    + intros Hn.
      rewrite binomialCI_run_of_quotient
        by (try assumption; now apply quotient_bounded).
      eexists. eexists. reflexivity.
    + intros ->. reflexivity.
  - apply quantileCI_alpha_2.
  - apply quantileCI_cases.
Qed.

(** ** Reading a sorted array *)

Lemma Sorted_app_last (l : list R) (c : R) :
  Sorted Rle l -> (forall x, In x l -> x <= c) -> Sorted Rle (l ++ [c]).
Proof.
  induction l as [| a l IH]; intros Hs Hb; simpl.
  - repeat constructor.
  - inversion Hs as [| ? ? Hs' Hhd]; subst.
    constructor.
    + apply IH; [assumption |]. intros x Hx. apply Hb. now right.
    + destruct l as [| a' l]; simpl.
      * constructor. apply Hb. now left.
      * constructor. now inversion Hhd.
Qed.

Lemma StronglySorted_nth (l : list R) :
  StronglySorted Rle l ->
  forall i j, (i <= j)%nat -> (j < length l)%nat -> nth i l 0 <= nth j l 0.
Proof.
  induction 1 as [| a l Hs IH Hall]; intros i j Hij Hj; [simpl in Hj; lia |].
  destruct j as [| j].
  - replace i with 0%nat by lia. lra.
  - destruct i as [| i].
    + cbn [nth]. rewrite Forall_forall in Hall. apply Hall, nth_In.
      simpl in Hj. lia.
    + cbn [nth]. apply IH; simpl in Hj; lia.
Qed.

(** With extremes that bracket the sample the array is in ascending
    order. *)
Lemma Xorder_of_sorted (X : list R) (e : R * R) :
  fst e <= snd e ->
  (forall x, In x X -> fst e <= x <= snd e) ->
  StronglySorted Rle (Xorder_of X e).
Proof.
  intros He Hb. rewrite Xorder_of_eq.
  apply Sorted_StronglySorted; [intros x y z; apply Rle_trans |].
  assert (Hin : forall x, In x (sorted X) -> fst e <= x <= snd e).
  { intros x Hx. apply Hb.
    apply (Permutation_in _ (sorted_perm X)). exact Hx. }
  constructor.
  - apply Sorted_app_last; [apply sorted_sorted |].
    intros x Hx. now apply Hin.
  - destruct (sorted X) as [| a l] eqn:E; simpl.
    + now constructor.
    + constructor. apply Hin. now left.
Qed.

(** The lower quantile does not exceed the upper one. *)
Lemma is_binom_quantile_mono (q q' : R) (n : nat) (p : R) (k k' : nat) :
  q <= q' ->
  is_binom_quantile q n p k -> is_binom_quantile q' n p k' -> (k <= k')%nat.
Proof.
  intros Hq [_ [_ Hbelow]] [_ [Hreach _]].
  destruct (le_lt_dec k k') as [H | H]; [assumption |].
  specialize (Hbelow k' H). lra.
Qed.

(** The call returns when [quant ^ n <= alpha / 2]. *)
Lemma quantileCI_returns
    (quant : R) (X : list R) (e : R * R) (alpha : R) :
  0 < quant < 1 -> 0 < alpha < 1 ->
  (Z.of_nat (length X) + 2 <= INT64_MAX)%Z ->
  quant ^ length X <= alpha / 2 ->
  exists lo hi, quantileCI quant X e alpha = Ok (lo, hi).
Proof.
  intros Hq Ha Hsize Hbig.
  destruct (quantileCI_run quant X e alpha Hq Ha Hsize)
    as [kl [ku [Hkl [Hku Hrun]]]].
  destruct (length X) as [| n] eqn:En; [simpl in Hbig; lra |].
  assert (Hku_n : (ku <= n)%nat).
  { destruct (le_lt_dec ku n) as [H | H]; [assumption |].
    destruct Hku as [_ [_ Hbelow]].
    specialize (Hbelow n H). rewrite cdfN_before_last in Hbelow. lra. }
  rewrite Hrun.
  replace (2 + Z.of_nat ku)%Z with (Z.of_nat (2 + ku)) by lia.
  rewrite getitem_inside by (rewrite Xorder_of_length; lia).
  eexists. eexists. reflexivity.
Qed.

Lemma float_margin_pos : 0 < float_margin.
Proof. unfold float_margin. apply Rinv_0_lt_compat, pow_lt. lra. Qed.

(** X1: for a valid level and quantile the call returns an interval when
    [quant ^ n] is below [alpha / 2], and raises [IndexError] when it is
    above, the two being at least [2^-20] apart, which the floating-point
    numbers resolve. *)
Theorem quantileCI_returns_iff
    (quant : R) (X : list R) (e : R * R) (alpha : R) :
  0 < quant < 1 -> 0 < alpha < 1 ->
  (Z.of_nat (length X) + 2 <= INT64_MAX)%Z ->
  (quant ^ length X + float_margin <= alpha / 2 ->
   exists lo hi, quantileCI quant X e alpha = Ok (lo, hi)) /\
  (alpha / 2 + float_margin <= quant ^ length X ->
   quantileCI quant X e alpha = Raise IndexError).
Proof.
  intros Hq Ha Hsize. pose proof float_margin_pos as Hm.
  split; intros Hcmp.
  - apply quantileCI_returns; try assumption. lra.
  - apply quantileCI_upper_overrun; try assumption. lra.
Qed.

(** X2: when the call returns and the extremes bracket the sample, the
    interval lies between the extremes, lower end first. *)
Theorem quantileCI_within_extremes
    (quant : R) (X : list R) (e : R * R) (alpha : R) (lo hi : R) :
  0 < quant < 1 -> 0 < alpha < 1 ->
  (Z.of_nat (length X) + 2 <= INT64_MAX)%Z ->
  fst e <= snd e ->
  (forall x, In x X -> fst e <= x <= snd e) ->
  quantileCI quant X e alpha = Ok (lo, hi) ->
  fst e <= lo /\ lo <= hi /\ hi <= snd e.
Proof.
  intros Hq Ha Hsize He Hb Hret.
  destruct (quantileCI_run quant X e alpha Hq Ha Hsize)
    as [kl [ku [Hkl [Hku Hrun]]]].
  rewrite Hrun in Hret.
  assert (Hkl_ku : (kl <= ku)%nat)
    by (apply (is_binom_quantile_mono (alpha / 2) (1 - alpha / 2)
                 (length X) quant); [lra | assumption | assumption]).
  assert (Hkl_n : (kl <= length X)%nat) by apply Hkl.
  pose proof (Xorder_of_length X e) as Hlen.
  pose proof (Xorder_of_sorted X e He Hb) as Hs.
  destruct (le_lt_dec (2 + ku) (length X + 1)) as [Hin | Hout].
  - replace (2 + Z.of_nat ku)%Z with (Z.of_nat (2 + ku)) in Hret by lia.
    rewrite getitem_inside in Hret by lia.
    cbn [bind] in Hret. injection Hret as <- <-.
    assert (H0 : nth 0 (Xorder_of X e) 0 = fst e)
      by (rewrite Xorder_of_eq; reflexivity).
    assert (H1 : nth (length X + 1) (Xorder_of X e) 0 = snd e).
    { rewrite Xorder_of_eq.
      replace (length X + 1)%nat with (S (length X)) by lia. cbn [nth].
      rewrite app_nth2 by (rewrite sorted_length; lia).
      rewrite sorted_length, Nat.sub_diag. reflexivity. }
    rewrite <- H0, <- H1.
    repeat split; apply StronglySorted_nth; trivial; lia.
  - rewrite getitem_past_end in Hret by lia. discriminate.
Qed.

(** * Further properties: the routines and the notebooks that call them *)

(** ** What the second-stage size achieves *)


(** ** The estimate and the sampled values *)

Lemma Rsum_bounds (a b : R) (l : list R) :
  Forall (fun y => a <= y <= b) l ->
  INR (length l) * a <= Rsum l <= INR (length l) * b.
Proof.
  induction 1 as [| y l Hy _ IH].
  - cbn. lra.
  - change (Rsum (y :: l)) with (y + Rsum l).
    cbn [length]. rewrite S_INR. lra.
Qed.

Lemma np_mean_bounds (a b : R) (l : list R) :
  l <> [] -> Forall (fun y => a <= y <= b) l -> a <= np_mean l <= b.
Proof.
  intros Hne Hall. pose proof (Rsum_bounds a b l Hall) as Hs.
  assert (Hn : 0 < INR (length l)).
  { apply lt_0_INR. destruct l; [contradiction | cbn; lia]. }
  unfold np_mean. split.
  - apply Rmult_le_reg_r with (INR (length l)); [assumption |].
    unfold Rdiv. rewrite Rmult_assoc, Rinv_l by lra. lra.
  - apply Rmult_le_reg_r with (INR (length l)); [assumption |].
    unfold Rdiv. rewrite Rmult_assoc, Rinv_l by lra. lra.
Qed.

Section MeanMCMore.

Context `{SciPy} {rng : Type}.

(** The second draw is never empty. *)
Lemma second_draw_nonempty (f : sampler rng) (z s tol : R) (s1 : rng) :
  sampler_ok f -> fst (f (nmu_of z s tol) s1) <> [].
Proof.
  intros Hf E. pose proof (Hf (nmu_of z s tol) s1) as Hlen.
  rewrite E in Hlen. pose proof (nmu_of_bounds z s tol). cbn in Hlen. lia.
Qed.

Lemma meanMC_CLT_within (f : sampler rng) (a b absTol relTol alpha : R)
    (s0 : rng) :
  sampler_ok f ->
  (forall n s, Forall (fun y => a <= y <= b) (fst (f n s))) ->
  exists mu nSample s2,
    meanMC_CLT f absTol relTol alpha s0 = Ok ((mu, nSample), s2) /\
    a <= mu <= b /\ (1001 <= nSample)%Z.
Proof.
  intros Hf Hrange. rewrite meanMC_CLT_run.
  eexists. eexists. eexists. split; [reflexivity |].
  split.
  - apply np_mean_bounds; [now apply second_draw_nonempty | apply Hrange].
  - match goal with |- (_ <= 1000 + nmu_of ?z ?s ?t)%Z =>
      pose proof (nmu_of_bounds z s t) end. lia.
Qed.




End MeanMCMore.

(** ** The travel-time example *)

Lemma Ttot_row (row : list R) :
  length row = 4%nat -> Forall (fun u => 0 <= u < 1) row ->
  16 <= 16 + Rsum (np_mul row [3; 5; 12; 6]) < 42.
Proof.
  intros Hlen Hu.
  destruct row as [| a [| b [| c [| d [| ? ?]]]]]; try discriminate.
  inversion Hu as [| ? ? Ha Hu1]; subst.
  inversion Hu1 as [| ? ? Hb Hu2]; subst.
  inversion Hu2 as [| ? ? Hc Hu3]; subst.
  inversion Hu3 as [| ? ? Hd _]; subst.
  unfold np_mul, Rsum. cbn. lra.
Qed.

Lemma Ttot_values {rng : Type} (rand : uniform_source rng) (n : Z) (s : rng) :
  uniform_ok rand ->
  length (fst (Ttot rand n s)) = Z.to_nat n /\
  Forall (fun t => 16 <= t <= 42) (fst (Ttot rand n s)).
Proof.
  intros Hok. destruct (Hok n 4%Z s) as [Hlen Hrows].
  unfold Ttot. destruct (rand n 4%Z s) as [U s']. cbn [fst] in *.
  split.
  - now rewrite length_map.
  - apply Forall_map. eapply Forall_impl; [| exact Hrows].
    intros row [Hl Hu].
    pose proof (Ttot_row row Hl Hu). lra.
Qed.

(** X8: [Ttot(n)] returns [n] total times, each of them in [16, 42]: the
    extremes 16 and 42 that the notebook passes to [quantileCI] bracket
    every sample. *)
Theorem Ttot_range {rng : Type} (rand : uniform_source rng) :
  uniform_ok rand ->
  sampler_ok (Ttot rand) /\
  forall n s t, In t (fst (Ttot rand n s)) -> 16 <= t <= 42.
Proof.
  intros Hok. split.
  - intros n s. apply (Ttot_values rand n s Hok).
  - intros n s t Hin.
    destruct (Ttot_values rand n s Hok) as [_ Hval].
    rewrite Forall_forall in Hval. now apply Hval.
Qed.

Section TravelTime.

Context `{SciPy} {rng : Type}.

(** X9: the mean travel time that [meanMC_CLT(Ttot, ...)] estimates lies
    in [16, 42], whatever the tolerances and the level. *)
Theorem meanMC_CLT_Ttot (rand : uniform_source rng)
    (absTol relTol alpha : R) (s0 : rng) :
  uniform_ok rand ->
  exists muhat nSamples s2,
    meanMC_CLT (Ttot rand) absTol relTol alpha s0
    = Ok ((muhat, nSamples), s2) /\
    16 <= muhat <= 42 /\ (1001 <= nSamples)%Z.
Proof.
  intros Hok. apply meanMC_CLT_within.
  - intros n s. apply (Ttot_values rand n s Hok).
  - intros n s. destruct (Ttot_values rand n s Hok) as [_ Hval].
    eapply Forall_impl; [| exact Hval]. cbv beta. intros; lra.
Qed.

End TravelTime.

Lemma count_above_from (X : list R) (t : R) : forall a : Z,
  fold_left (fun acc x => (acc + (if Rlt_dec t x then 1 else 0))%Z) X a
  = (a + count_above X t)%Z.
Proof.
  unfold count_above.
  induction X as [| x X IH]; intros a; cbn [fold_left].
  - lia.
  - rewrite IH, (IH (0 + _)%Z). lia.
Qed.

Lemma count_above_cons (x : R) (X : list R) (t : R) :
  count_above (x :: X) t
  = ((if Rlt_dec t x then 1 else 0) + count_above X t)%Z.
Proof.
  unfold count_above at 1. cbn [fold_left]. now rewrite count_above_from.
Qed.

Lemma count_above_range (X : list R) (t : R) :
  (0 <= count_above X t <= Z.of_nat (length X))%Z.
Proof.
  induction X as [| x X IH].
  - cbn. lia.
  - rewrite count_above_cons. cbn [length]. destruct (Rlt_dec t x); lia.
Qed.

Lemma count_above_none (X : list R) (t : R) :
  Forall (fun x => x <= t) X -> count_above X t = 0%Z.
Proof.
  induction 1 as [| x X Hx _ IH]; [reflexivity |].
  rewrite count_above_cons, IH. destruct (Rlt_dec t x); [lra | reflexivity].
Qed.

Lemma count_above_all (X : list R) (t : R) :
  Forall (fun x => t < x) X -> count_above X t = Z.of_nat (length X).
Proof.
  induction 1 as [| x X Hx _ IH]; [reflexivity |].
  rewrite count_above_cons, IH. cbn [length].
  destruct (Rlt_dec t x); [lia | contradiction].
Qed.

Section Late.

Context `{SciPy} {rng : Type}.

(** X10: for a positive sample size the late-date cell returns; its exact
    interval contains the proportion of late trips in the sample; a
    [lateTime] of 42 or more gives the lower end 0 and the normal interval
    [0, 0], and a [lateTime] below 16 gives the exact interval [1, 1] and
    the normal interval [1, 1].  Of the solver two facts are used: it
    returns its seed or a point where the residual is a number of smaller
    magnitude, and it returns its seed when the function has no value
    beyond it. *)
Theorem late_probability_CI_brackets
    (rand : uniform_source rng) (n : Z) (lateTime alpha : R) (s : rng) :
  fsolve_descends -> fsolve_needs_a_slope -> uniform_ok rand ->
  (0 < n)%Z -> 0 < alpha < 1 ->
  exists lo hi cltci Ttotval s',
    late_probability_CI rand n lateTime alpha s
    = (Ok ((lo, hi), cltci), (Ttotval, s')) /\
    Z.of_nat (length Ttotval) = n /\
    0 <= lo <= IZR (count_above Ttotval lateTime) / IZR n /\
    IZR (count_above Ttotval lateTime) / IZR n <= hi <= 1 /\
    (42 <= lateTime -> lo = 0 /\ cltci = (0, 0)) /\
    (lateTime < 16 -> lo = 1 /\ hi = 1 /\ cltci = (1, 1)).
Proof.
  intros Hdesc Hstall Hrand Hn Ha.
  destruct (Ttot_values rand n s Hrand) as [Hlen Hval].
  unfold late_probability_CI.
  destruct (Ttot rand n s) as [T s']. cbn [fst] in *.
  assert (Hlen' : Z.of_nat (length T) = n) by lia.
  pose proof (count_above_range T lateTime) as Hc.
  destruct (binomialCI_brackets n (count_above T lateTime) alpha
              Hdesc Hn ltac:(lia) Ha)
    as [lo [hi [clt [Hrun [Hlo [Hhi [Hzero Hall]]]]]]].
  exists lo, hi, clt, T, s'.
  split; [now rewrite Hrun |]. split; [assumption |].
  split; [assumption |]. split; [assumption |].
  split; intros Ht.
  - apply Hzero, count_above_none.
    eapply Forall_impl; [| exact Hval]. cbv beta. intros; lra.
  - assert (Ecount : count_above T lateTime = n).
    { rewrite <- Hlen'. apply count_above_all.
      eapply Forall_impl; [| exact Hval]. cbv beta. intros; lra. }
    rewrite Ecount in Hrun.
    rewrite (binomialCI_all_successes n alpha Hstall Hn) in Hrun.
    injection Hrun as <- <- <-. repeat split.
Qed.

End Late.

(** The positions that a returning call reads. *)
Lemma quantileCI_positions
    (quant : R) (X : list R) (e : R * R) (alpha : R) (lo hi : R) :
  0 < quant < 1 -> 0 < alpha < 1 ->
  (Z.of_nat (length X) + 2 <= INT64_MAX)%Z ->
  quantileCI quant X e alpha = Ok (lo, hi) ->
  exists i j, (1 <= i < j)%nat /\ (j <= length X + 1)%nat /\
    lo = nth i (Xorder_of X e) 0 /\ hi = nth j (Xorder_of X e) 0.
Proof.
  intros Hq Ha Hsize Hret.
  destruct (quantileCI_run quant X e alpha Hq Ha Hsize)
    as [kl [ku [Hkl [Hku Hrun]]]].
  rewrite Hrun in Hret.
  assert (Hkl_ku : (kl <= ku)%nat)
    by (apply (is_binom_quantile_mono (alpha / 2) (1 - alpha / 2)
                 (length X) quant); [lra | assumption | assumption]).
  pose proof (Xorder_of_length X e) as Hlen.
  destruct (le_lt_dec (2 + ku) (length X + 1)) as [Hin | Hout].
  - replace (2 + Z.of_nat ku)%Z with (Z.of_nat (2 + ku)) in Hret by lia.
    rewrite getitem_inside in Hret by lia.
    cbn [bind] in Hret. injection Hret as <- <-.
    exists (1 + kl)%nat, (2 + ku)%nat. repeat split; lia.
  - rewrite getitem_past_end in Hret by lia. discriminate.
Qed.

(** X11: for a sample of [n] total times, the quantile cell returns an
    interval inside [16, 42], lower end first, when [(1 - p) ^ n] is below
    [alpha / 2], and raises [IndexError] when it is above, the two being
    at least [2^-20] apart, which the floating-point numbers resolve. *)
Theorem late_quantile_CI_range {rng : Type}
    (rand : uniform_source rng) (n : Z) (s : rng) (p alpha : R) :
  uniform_ok rand ->
  (0 <= n)%Z -> (n + 2 <= INT64_MAX)%Z -> 0 < p < 1 -> 0 < alpha < 1 ->
  let Ttotval := fst (Ttot rand n s) in
  ((1 - p) ^ Z.to_nat n + float_margin <= alpha / 2 ->
   exists lo hi, late_quantile_CI p Ttotval alpha = Ok (lo, hi) /\
                 16 <= lo /\ lo <= hi /\ hi <= 42) /\
  (alpha / 2 + float_margin <= (1 - p) ^ Z.to_nat n ->
   late_quantile_CI p Ttotval alpha = Raise IndexError).
Proof.
  intros Hok Hn Hsize Hp Ha T. pose proof float_margin_pos as Hm.
  destruct (Ttot_values rand n s Hok) as [Hlen Hval]. fold T in Hlen, Hval.
  unfold late_quantile_CI. rewrite <- Hlen.
  assert (Hsz : (Z.of_nat (length T) + 2 <= INT64_MAX)%Z) by lia.
  split; intros Hcmp.
  - destruct (quantileCI_returns (1 - p) T (16, 42) alpha
                ltac:(lra) Ha Hsz ltac:(lra)) as [lo [hi Hret]].
    exists lo, hi. split; [assumption |].
    destruct (quantileCI_positions (1 - p) T (16, 42) alpha lo hi
                ltac:(lra) Ha Hsz Hret) as [i [j [Hij [Hj [-> ->]]]]].
    assert (Hs : StronglySorted Rle (Xorder_of T (16, 42))).
    { apply Xorder_of_sorted; cbn [fst snd]; [lra |].
      intros x Hx. rewrite Forall_forall in Hval.
      specialize (Hval x Hx). cbv beta in Hval. lra. }
    pose proof (Xorder_of_length T (16, 42)) as HL.
    assert (H0 : nth 0 (Xorder_of T (16, 42)) 0 = 16)
      by (rewrite Xorder_of_eq; reflexivity).
    assert (H1 : nth (length T + 1) (Xorder_of T (16, 42)) 0 = 42).
    { rewrite Xorder_of_eq.
      replace (length T + 1)%nat with (S (length T)) by lia. cbn [nth].
      rewrite app_nth2 by (rewrite sorted_length; lia).
      rewrite sorted_length, Nat.sub_diag. reflexivity. }
    pose proof (StronglySorted_nth _ Hs 0 i ltac:(lia) ltac:(lia)) as Ha0.
    pose proof (StronglySorted_nth _ Hs i j ltac:(lia) ltac:(lia)) as Hab.
    pose proof (StronglySorted_nth _ Hs j (length T + 1)
                  ltac:(lia) ltac:(lia)) as Hb1.
    lra.
  - apply quantileCI_upper_overrun; try assumption; lra.
Qed.

(** ** The election example *)

(** A loop that assigns the first [k] entries leaves the rest alone. *)
Lemma fill_prefix (f : nat -> R) : forall (k : nat) (a : list R),
  (k <= length a)%nat ->
  fold_left (fun a i => setitem a i (f i)) (seq 0 k) a
  = map f (seq 0 k) ++ skipn k a.
Proof.
  induction k as [| k IH]; intros a Hk; [reflexivity |].
  rewrite seq_S, fold_left_app, IH by lia. cbn [fold_left Nat.add].
  unfold setitem.
  assert (Hlen : length (map f (seq 0 k)) = k)
    by now rewrite length_map, length_seq.
  rewrite firstn_app, skipn_app, Hlen, Nat.sub_diag.
  rewrite firstn_all2 by lia. rewrite (skipn_all2 (n := S k)) by lia.
  replace (S k - k)%nat with 1%nat by lia.
  rewrite skipn_skipn. cbn [firstn Nat.add app].
  rewrite map_app, app_nil_r, <- app_assoc. reflexivity.
Qed.

(** The inner loop overwrites the whole buffer: nothing of an earlier
    trial is left in it. *)
Lemma count_votes_eq (votes : list Z) (n : nat) (vote : list R) :
  length vote = n -> count_votes votes n vote = tallies votes n.
Proof.
  intros Hlen. unfold count_votes, tallies.
  rewrite (fill_prefix (fun i => np_count_eq votes (Z.of_nat i))) by lia.
  rewrite skipn_all2 by lia. apply app_nil_r.
Qed.

Lemma tallies_length (votes : list Z) (n : nat) :
  length (tallies votes n) = n.
Proof. unfold tallies. now rewrite length_map, length_seq. Qed.

Lemma tallies_nth (votes : list Z) (n c : nat) :
  (c < n)%nat -> nth c (tallies votes n) 0 = np_count_eq votes (Z.of_nat c).
Proof.
  intros Hc. unfold tallies.
  rewrite (nth_indep _ 0 (np_count_eq votes (Z.of_nat 0)))
    by (rewrite length_map, length_seq; lia).
  rewrite (map_nth (fun i => np_count_eq votes (Z.of_nat i))).
  now rewrite seq_nth by lia.
Qed.

Lemma slice_to_end (t : list R) : slice t 2 (length t) = skipn 2 t.
Proof.
  unfold slice. apply firstn_all2. rewrite length_skipn. lia.
Qed.

Lemma beats_rest_inside (t : list R) (i : nat) :
  (i < length t)%nat ->
  beats_rest t (Z.of_nat i) (length t)
  = Ok (forallb (fun w => if Rlt_dec w (nth i t 0) then true else false)
                (skipn 2 t)).
Proof.
  intros Hi. unfold beats_rest.
  rewrite getitem_inside by assumption. cbn [bind].
  now rewrite slice_to_end.
Qed.

Section Election.

Context {rng : Type} (rand : uniform_source rng) (nVotes : Z) (CDF : list R).

(** One trial, with at least two candidates. *)
Lemma TwoBestWin_trial_run (ii : nat) (Yes vote : list R) (s : rng) :
  (2 <= length CDF)%nat -> length vote = length CDF ->
  TwoBestWin_trial rand nVotes CDF ii ((Yes, vote), s)
  = Ok ((setitem Yes ii (outcome CDF (fst (rand nVotes 1%Z s))),
         tallies (votes_of (fst (rand nVotes 1%Z s)) CDF) (length CDF)),
        snd (rand nVotes 1%Z s)).
Proof.
  intros Hn Hlen. unfold TwoBestWin_trial, outcome, two_best.
  destruct (rand nVotes 1%Z s) as [U s']. cbn [fst snd].
  rewrite count_votes_eq by assumption.
  set (t := tallies (votes_of U CDF) (length CDF)).
  assert (Ht : length t = length CDF) by apply tallies_length.
  rewrite <- Ht.
  pose proof (beats_rest_inside t 0 ltac:(lia)) as B0.
  pose proof (beats_rest_inside t 1 ltac:(lia)) as B1.
  change (Z.of_nat 0) with 0%Z in B0. change (Z.of_nat 1) with 1%Z in B1.
  rewrite B0. cbn [bind].
  destruct (forallb _ (skipn 2 t)) eqn:E0; cbn [andb].
  - rewrite B1. cbn [bind]. reflexivity.
  - reflexivity.
Qed.

Lemma setitem_middle (done rest : list R) (x v : R) :
  setitem (done ++ x :: rest) (length done) v = (done ++ [v]) ++ rest.
Proof.
  unfold setitem.
  rewrite firstn_app, Nat.sub_diag, firstn_all. cbn [firstn].
  rewrite app_nil_r.
  rewrite skipn_app, skipn_all2 by lia.
  replace (S (length done) - length done)%nat with 1%nat by lia.
  cbn [skipn app]. now rewrite <- app_assoc.
Qed.

(** The outer loop, from any point on. *)
Lemma TwoBestWin_loop :
  (2 <= length CDF)%nat ->
  forall (count : nat) (done vote : list R) (s : rng),
    length vote = length CDF ->
    exists vote',
      for_range (TwoBestWin_trial rand nVotes CDF) (length done) count
                ((done ++ np_zeros count, vote), s)
      = Ok ((done ++ map (outcome CDF) (fst (draws rand nVotes count s)),
             vote'),
            snd (draws rand nVotes count s)).
Proof.
  intros Hn. induction count as [| count IH]; intros done vote s Hlen.
  - exists vote. reflexivity.
  - cbn [for_range np_zeros repeat draws].
    rewrite TwoBestWin_trial_run by assumption. cbn [bind].
    rewrite setitem_middle.
    destruct (rand nVotes 1%Z s) as [U s'] eqn:EU. cbn [fst snd].
    destruct (IH (done ++ [outcome CDF U])
                 (tallies (votes_of U CDF) (length CDF)) s'
                 (tallies_length _ _)) as [vote' Hrun].
    rewrite length_app, Nat.add_comm in Hrun. cbn [length Nat.add] in Hrun.
    exists vote'. unfold np_zeros in Hrun. rewrite Hrun.
    destruct (draws rand nVotes count s') as [rest s'']. cbn [fst snd map].
    now rewrite <- app_assoc.
Qed.

(** The whole call, with at least two candidates. *)
Lemma TwoBestWin_run (nTrials : nat) (s : rng) :
  (2 <= length CDF)%nat ->
  TwoBestWin rand nTrials nVotes CDF s
  = Ok (map (outcome CDF) (fst (draws rand nVotes nTrials s)),
        snd (draws rand nVotes nTrials s)).
Proof.
  intros Hn. unfold TwoBestWin.
  destruct (TwoBestWin_loop Hn nTrials [] (np_zeros (length CDF)) s)
    as [vote' Hrun].
  { unfold np_zeros. apply repeat_length. }
  cbn [length app] in Hrun. rewrite Hrun. reflexivity.
Qed.

Lemma draws_length (k : nat) : forall s : rng,
  length (fst (draws rand nVotes k s)) = k.
Proof.
  induction k as [| k IH]; intros s; [reflexivity |].
  cbn [draws]. destruct (rand nVotes 1%Z s) as [U s'].
  specialize (IH s'). destruct (draws rand nVotes k s') as [rest s''].
  cbn [fst length] in *. now rewrite IH.
Qed.

End Election.

Lemma two_best_iff (votes : list Z) (n : nat) :
  (2 <= n)%nat ->
  two_best (tallies votes n) = true <->
  forall c, (2 <= c < n)%nat ->
    np_count_eq votes (Z.of_nat c) < np_count_eq votes 0%Z /\
    np_count_eq votes (Z.of_nat c) < np_count_eq votes 1%Z.
Proof.
  intros Hn. unfold two_best.
  rewrite (tallies_nth votes n 0), (tallies_nth votes n 1) by lia.
  change (Z.of_nat 0) with 0%Z. change (Z.of_nat 1) with 1%Z.
  rewrite andb_true_iff, !forallb_forall.
  assert (Hin : forall w, In w (skipn 2 (tallies votes n)) <->
                          exists c, (2 <= c < n)%nat /\
                                    w = np_count_eq votes (Z.of_nat c)).
  { intros w. unfold tallies. rewrite skipn_map, skipn_seq, in_map_iff.
    split.
    - intros [c [Hc Hin]]. apply in_seq in Hin. exists c. split; [lia | auto].
    - intros [c [Hc Hw]]. exists c. split; [auto |]. apply in_seq. lia. }
  split.
  - intros [H0 H1] c Hc.
    assert (Hw : In (np_count_eq votes (Z.of_nat c))
                    (skipn 2 (tallies votes n)))
      by (apply Hin; exists c; auto).
    specialize (H0 _ Hw). specialize (H1 _ Hw).
    destruct (Rlt_dec _ _); [| discriminate].
    destruct (Rlt_dec _ _); [| discriminate]. split; assumption.
  - intros Hall. split; intros w Hw; apply Hin in Hw;
      destruct Hw as [c [Hc ->]]; destruct (Hall c Hc) as [H0 H1];
      destruct (Rlt_dec _ _); trivial; contradiction.
Qed.

Lemma outcome_cases (CDF : list R) (U : list (list R)) :
  outcome CDF U = 1 \/ outcome CDF U = 0.
Proof. unfold outcome. destruct (two_best _); auto. Qed.

Lemma outcome_one (CDF : list R) (U : list (list R)) :
  outcome CDF U = 1 <-> two_best (tallies (votes_of U CDF) (length CDF)) = true.
Proof.
  unfold outcome. destruct (two_best _); split; trivial; try discriminate.
  intros E. lra.
Qed.

(** X12: with at least two candidates the call returns one entry per
    trial; the entry is 1 when, among the votes drawn in this trial,
    candidates 0 and 1 each receive more votes than every later
    candidate, and 0 otherwise.  The buffer [vote] that the trials share
    carries nothing from one trial to the next. *)
Theorem TwoBestWin_decides {rng : Type} (rand : uniform_source rng)
    (nTrials : nat) (nVotes : Z) (CDF : list R) (s : rng) :
  (2 <= length CDF)%nat ->
  exists Yes,
    TwoBestWin rand nTrials nVotes CDF s
    = Ok (Yes, snd (draws rand nVotes nTrials s)) /\
    length Yes = nTrials /\
    forall ii, (ii < nTrials)%nat ->
      let U := nth ii (fst (draws rand nVotes nTrials s)) [] in
      (nth ii Yes 0 = 1 \/ nth ii Yes 0 = 0) /\
      (nth ii Yes 0 = 1 <->
       forall c, (2 <= c < length CDF)%nat ->
         received CDF U c < received CDF U 0 /\
         received CDF U c < received CDF U 1).
Proof.
  intros Hn. rewrite TwoBestWin_run by assumption.
  eexists. split; [reflexivity |].
  pose proof (draws_length rand nVotes nTrials s) as Hlen.
  split; [now rewrite length_map |].
  intros ii Hii U.
  assert (Hnth : nth ii (map (outcome CDF)
                           (fst (draws rand nVotes nTrials s))) 0
                 = outcome CDF U).
  { rewrite (nth_indep _ 0 (outcome CDF [])) by (rewrite length_map; lia).
    apply map_nth. }
  rewrite Hnth. split; [apply outcome_cases |].
  rewrite outcome_one. unfold received. now apply two_best_iff.
Qed.

(** X13: with exactly two candidates there is no later candidate to beat,
    and every trial counts as a win, whatever the votes. *)
Theorem TwoBestWin_two_candidates {rng : Type} (rand : uniform_source rng)
    (nTrials : nat) (nVotes : Z) (CDF : list R) (s : rng) :
  length CDF = 2%nat ->
  TwoBestWin rand nTrials nVotes CDF s
  = Ok (repeat 1 nTrials, snd (draws rand nVotes nTrials s)).
Proof.
  intros Hn. rewrite TwoBestWin_run by lia.
  pose proof (draws_length rand nVotes nTrials s) as Hlen.
  assert (Hall : forall l, map (outcome CDF) l = repeat 1 (length l)).
  { induction l as [| U l IH]; [reflexivity |].
    cbn [map length repeat]. rewrite IH. f_equal.
    apply outcome_one. rewrite Hn. reflexivity. }
  now rewrite Hall, Hlen.
Qed.

(** X14: with fewer than two candidates and at least one trial the call
    raises [IndexError] in the first trial: with one candidate at
    [vote[1]], with none at [vote[0]]. *)
Theorem TwoBestWin_too_few_candidates {rng : Type}
    (rand : uniform_source rng) (nTrials : nat) (nVotes : Z) (CDF : list R)
    (s : rng) :
  (length CDF < 2)%nat -> (0 < nTrials)%nat ->
  TwoBestWin rand nTrials nVotes CDF s = Raise IndexError.
Proof.
  intros Hn Ht. destruct nTrials as [| k]; [lia |].
  unfold TwoBestWin. cbn [for_range]. unfold TwoBestWin_trial.
  destruct (rand nVotes 1%Z s) as [U s'].
  rewrite count_votes_eq by apply repeat_length.
  destruct CDF as [| c0 [| c1 CDF']]; [| | cbn [length] in Hn; lia];
    reflexivity.
Qed.

Lemma Rsum_outcomes (CDF : list R) (l : list (list (list R))) :
  exists k : nat, (k <= length l)%nat /\ Rsum (map (outcome CDF) l) = INR k.
Proof.
  induction l as [| U l [k [Hk IH]]].
  - exists 0%nat. split; [lia | reflexivity].
  - change (Rsum (map (outcome CDF) (U :: l)))
      with (outcome CDF U + Rsum (map (outcome CDF) l)).
    rewrite IH. destruct (outcome_cases CDF U) as [E | E]; rewrite E.
    + exists (S k). split; [cbn [length]; lia |]. rewrite S_INR. lra.
    + exists k. split; [cbn [length]; lia | lra].
Qed.

(** X15: the sum of the returned vector is a whole number between 0 and
    [nTrials], which is what [binomialCI] expects as its number of
    successes. *)
Theorem TwoBestWin_success_count {rng : Type} (rand : uniform_source rng)
    (nTrials : nat) (nVotes : Z) (CDF : list R) (s : rng) :
  (2 <= length CDF)%nat ->
  exists Yes s' (k : Z),
    TwoBestWin rand nTrials nVotes CDF s = Ok (Yes, s') /\
    Rsum Yes = IZR k /\ (0 <= k <= Z.of_nat nTrials)%Z.
Proof.
  intros Hn. rewrite TwoBestWin_run by assumption.
  destruct (Rsum_outcomes CDF (fst (draws rand nVotes nTrials s)))
    as [k [Hk Hsum]].
  rewrite draws_length in Hk.
  eexists. eexists. exists (Z.of_nat k).
  split; [reflexivity |]. split; [| lia].
  now rewrite Hsum, INR_IZR_INZ.
Qed.

(** *** Votes that are counted for nobody *)

Lemma np_count_eq_cons (v : Z) (votes : list Z) (i : Z) :
  np_count_eq (v :: votes) i
  = (if (v =? i)%Z then 1 else 0) + np_count_eq votes i.
Proof.
  unfold np_count_eq. cbn [filter]. destruct (v =? i)%Z.
  - cbn [length]. rewrite S_INR. lra.
  - lra.
Qed.

Lemma Rsum_map_plus (f g : nat -> R) (l : list nat) :
  Rsum (map (fun i => f i + g i) l) = Rsum (map f l) + Rsum (map g l).
Proof.
  induction l as [| i l IH]; [cbn; lra |].
  change (f i + g i + Rsum (map (fun i => f i + g i) l)
          = f i + Rsum (map f l) + (g i + Rsum (map g l))).
  rewrite IH. lra.
Qed.

Lemma Rsum_indicator (v : Z) (n : nat) :
  Rsum (map (fun i => if (v =? Z.of_nat i)%Z then 1 else 0) (seq 0 n))
  = if ((0 <=? v) && (v <? Z.of_nat n))%Z then 1 else 0.
Proof.
  induction n as [| n IH].
  - cbn [seq map Rsum fold_right].
    destruct (0 <=? v)%Z eqn:E0; cbn [andb]; [| reflexivity].
    destruct (Z.ltb_spec v (Z.of_nat 0)); [lia | reflexivity].
  - rewrite seq_S, map_app, Rsum_app, IH. cbn [Nat.add map].
    change (Rsum [if (v =? Z.of_nat n)%Z then 1 else 0])
      with ((if (v =? Z.of_nat n)%Z then 1 else 0) + 0).
    destruct (Z.leb_spec 0 v); cbn [andb];
      destruct (Z.ltb_spec v (Z.of_nat n));
      destruct (Z.ltb_spec v (Z.of_nat (S n)));
      destruct (Z.eqb_spec v (Z.of_nat n)); try lia; lra.
Qed.

Lemma tallies_cons (v : Z) (votes : list Z) (n : nat) :
  Rsum (tallies (v :: votes) n)
  = (if ((0 <=? v) && (v <? Z.of_nat n))%Z then 1 else 0)
    + Rsum (tallies votes n).
Proof.
  unfold tallies.
  rewrite <- Rsum_indicator,
    <- (Rsum_map_plus (fun i => if (v =? Z.of_nat i)%Z then 1 else 0)
                      (fun i => np_count_eq votes (Z.of_nat i))).
  f_equal. apply map_ext. intros i. apply np_count_eq_cons.
Qed.

Lemma filter_all_iff (p : R -> bool) (l : list R) :
  length (filter p l) = length l <-> forallb p l = true.
Proof.
  induction l as [| c l IH]; [cbn; tauto |].
  cbn [filter forallb]. pose proof (filter_length_le p l) as Hle.
  destruct (p c); cbn [length andb].
  - rewrite <- IH. lia.
  - split; [lia | discriminate].
Qed.

(** The tallies add up to the number of draws that are not above every
    entry of [CDF]. *)
Lemma tallies_total (CDF : list R) (U : list (list R)) :
  Rsum (tallies (votes_of U CDF) (length CDF))
  = INR (length U) - INR (length (filter (above_all CDF) U)).
Proof.
  induction U as [| row U IH].
  - unfold tallies. cbn [votes_of map length filter].
    replace (INR 0 - INR 0) with 0 by (cbn; lra).
    induction (seq 0 (length CDF)) as [| i l IHl]; [reflexivity |].
    cbn [map]. change (np_count_eq [] (Z.of_nat i) + Rsum
      (map (fun i0 => np_count_eq [] (Z.of_nat i0)) l) = 0).
    rewrite IHl. unfold np_count_eq. cbn. lra.
  - cbn [votes_of map]. fold (votes_of U CDF).
    rewrite tallies_cons, IH. clear IH.
    set (p := fun c => if Rlt_dec c (nth 0 row 0) then true else false).
    pose proof (filter_length_le p CDF) as Hle.
    pose proof (filter_all_iff p CDF) as Hall.
    cbn [filter length]. fold p. change (forallb p CDF) with (above_all CDF row) in Hall.
    destruct (Z.leb_spec 0 (Z.of_nat (length (filter p CDF)))); [| lia].
    cbn [andb].
    destruct (Z.ltb_spec (Z.of_nat (length (filter p CDF)))
                         (Z.of_nat (length CDF)));
      destruct (above_all CDF row) eqn:E; cbn [length];
      rewrite ?S_INR; try lra.
    + exfalso. assert (length (filter p CDF) = length CDF)
        by (apply Hall; reflexivity). lia.
    + exfalso. assert (false = true) by (apply Hall; lia). discriminate.
Qed.

(** X16: after the inner loop the buffer [vote] holds tallies that add up
    to the number of voters whose number is not above every entry of
    [CDF]: a voter whose number is above all of them is counted for
    nobody, and when some entry of [CDF] is at least 1 every voter is
    counted. *)
Theorem count_votes_total (CDF : list R) (U : list (list R))
    (vote : list R) :
  length vote = length CDF ->
  Rsum (count_votes (votes_of U CDF) (length CDF) vote)
  = INR (length U) - INR (length (filter (above_all CDF) U)) /\
  ((exists c, In c CDF /\ 1 <= c) ->
   Forall (fun row => nth 0 row 0 < 1) U ->
   Rsum (count_votes (votes_of U CDF) (length CDF) vote) = INR (length U)).
Proof.
  intros Hlen. rewrite count_votes_eq by assumption.
  rewrite tallies_total. split; [reflexivity |].
  intros [c [Hc H1]] HU.
  assert (Hnone : filter (above_all CDF) U = []).
  { induction HU as [| row U Hrow _ IH]; [reflexivity |].
    cbn [filter]. rewrite IH.
    assert (E : above_all CDF row = false).
    { destruct (above_all CDF row) eqn:E; [| reflexivity].
      unfold above_all in E. rewrite forallb_forall in E.
      specialize (E c Hc). cbv beta in E.
      destruct (Rlt_dec c (nth 0 row 0)); [lra | discriminate]. }
    now rewrite E. }
  rewrite Hnone. cbn. lra.
Qed.

(** ** The digital option example *)

Lemma np_pow_half (x : R) : 0 <= x -> np_pow x (1 / (1 + 1)) = sqrt x.
Proof.
  intros Hx. unfold np_pow. destruct (Req_dec_T x 0) as [E | NE].
  - subst x. rewrite sqrt_0.
    destruct (Req_dec_T (1 / (1 + 1)) 0); [lra | reflexivity].
  - replace (1 / (1 + 1)) with (/ 2) by field.
    apply Rpower_sqrt. lra.
Qed.

Lemma sqrt_unit (x : R) : 0 <= x < 1 -> 0 <= sqrt x < 1.
Proof.
  intros Hx. split; [apply sqrt_pos |].
  rewrite <- sqrt_1. apply sqrt_lt_1; lra.
Qed.

Lemma YIS_row_pair (a b : R) :
  0 <= a < 1 -> 0 <= b < 1 ->
  DigitalOption.YIS_row [a; b]
  = np_div (25 * (if Rle_dec (17 / 10) (sqrt a + sqrt b) then 1 else 0))
           (sqrt a * sqrt b).
Proof.
  intros Ha Hb. unfold DigitalOption.YIS_row. cbv zeta.
  cbn [map np_prod fold_right].
  rewrite (np_pow_half a), (np_pow_half b) by lra.
  assert (Hab : 0 <= a * (b * 1)) by nra.
  rewrite (np_pow_half (a * (b * 1)) Hab).
  rewrite Rmult_1_r, sqrt_mult by lra.
  change (Rsum [sqrt a; sqrt b]) with (sqrt a + (sqrt b + 0)).
  rewrite Rplus_0_r.
  replace (100 / (1 + 1) ^ 2) with 25 by field.
  reflexivity.
Qed.

(** X17: on a row of two numbers of [[2^-500, 1)], whose product is a
    floating-point number away from 0, the importance-sampling payoff is
    finite, and it is either 0 or between 25 and 2500/49: it stays below
    the payoff 100 of the plain sampler. *)
Theorem YIS_row_range (a b : R) :
  / 2 ^ 500 <= a < 1 -> / 2 ^ 500 <= b < 1 ->
  exists v, DigitalOption.YIS_row [a; b] = Fin v /\
            (v = 0 \/ 25 <= v <= 2500 / 49).
Proof.
  intros Ha Hb.
  assert (Htiny : 0 < / 2 ^ 500) by (apply Rinv_0_lt_compat, pow_lt; lra).
  rewrite YIS_row_pair by lra.
  pose proof (sqrt_unit a ltac:(lra)) as Hsa.
  pose proof (sqrt_unit b ltac:(lra)) as Hsb.
  assert (Hpa : 0 < sqrt a) by (apply sqrt_lt_R0; lra).
  assert (Hpb : 0 < sqrt b) by (apply sqrt_lt_R0; lra).
  assert (Hprod : 0 < sqrt a * sqrt b) by (apply Rmult_lt_0_compat; lra).
  rewrite np_div_nonzero by lra.
  eexists. split; [reflexivity |].
  destruct (Rle_dec (17 / 10) (sqrt a + sqrt b)) as [Hin | Hout].
  - right.
    assert (Hlo : 49 / 100 < sqrt a * sqrt b) by nra.
    assert (Hhi : sqrt a * sqrt b < 1) by nra.
    rewrite Rmult_1_r. split.
    + apply Rmult_le_reg_r with (sqrt a * sqrt b); [assumption |].
      unfold Rdiv. rewrite Rmult_assoc, Rinv_l by lra. lra.
    + apply Rmult_le_reg_r with (sqrt a * sqrt b); [assumption |].
      unfold Rdiv at 1. rewrite Rmult_assoc, Rinv_l by lra. lra.
  - left. unfold Rdiv. ring.
Qed.

(** X18: a row with a coordinate that is exactly 0 gives [nan]: the
    indicator is 0, and so is the product under the root. *)
Theorem YIS_row_zero_coordinate (a b : R) :
  0 <= a < 1 -> 0 <= b < 1 -> a = 0 \/ b = 0 ->
  DigitalOption.YIS_row [a; b] = NaN.
Proof.
  intros Ha Hb Hz. rewrite YIS_row_pair by assumption.
  pose proof (sqrt_unit a Ha) as Hsa. pose proof (sqrt_unit b Hb) as Hsb.
  assert (Hprod : sqrt a * sqrt b = 0).
  { destruct Hz as [-> | ->]; rewrite sqrt_0; ring. }
  assert (Hsum : sqrt a + sqrt b < 17 / 10).
  { destruct Hz as [-> | ->]; rewrite sqrt_0; lra. }
  rewrite Hprod. destruct (Rle_dec (17 / 10) (sqrt a + sqrt b)); [lra |].
  unfold np_div. destruct (Req_dec_T 0 0) as [_ | NE]; [| contradiction].
  rewrite Rmult_0_r.
  destruct (Rlt_dec 0 0); [lra |]. reflexivity.
Qed.

Section Digital.

Context `{SciPy} {rng : Type}.

Lemma Y_values (rand : uniform_source rng) (n : Z) (s : rng) :
  uniform_ok rand ->
  length (fst (DigitalOption.Y rand n s)) = Z.to_nat n /\
  Forall (fun y => y = 0 \/ y = 100) (fst (DigitalOption.Y rand n s)).
Proof.
  intros Hok. destruct (Hok n 2%Z s) as [Hlen _].
  unfold DigitalOption.Y. destruct (rand n 2%Z s) as [U s']. cbn [fst] in *.
  split; [now rewrite length_map |].
  apply Forall_map, Forall_forall. intros row _.
  destruct (Rle_dec (17 / 10) (Rsum row)); [right | left]; ring.
Qed.

Lemma Rsum_two_valued (c : R) (l : list R) :
  Forall (fun y => y = 0 \/ y = c) l ->
  exists k : nat, (k <= length l)%nat /\ Rsum l = c * INR k.
Proof.
  induction 1 as [| y l Hy _ [k [Hk IH]]].
  - exists 0%nat. split; [lia | cbn; ring].
  - change (Rsum (y :: l)) with (y + Rsum l). rewrite IH.
    destruct Hy as [-> | ->].
    + exists k. split; [cbn [length]; lia | ring].
    + exists (S k). split; [cbn [length]; lia | rewrite S_INR; ring].
Qed.

(** X19: the estimate of the expected payoff of the digital option is 100
    times a proportion: [100 * k / nMu] for a whole number [k] of paying
    draws among the [nMu = nSamples - 1000] of the second stage. *)
Theorem meanMC_CLT_digital (rand : uniform_source rng)
    (absTol relTol alpha : R) (s0 : rng) :
  uniform_ok rand ->
  exists expPay nSamples s2 (k : Z),
    meanMC_CLT (DigitalOption.Y rand) absTol relTol alpha s0
    = Ok ((expPay, nSamples), s2) /\
    (0 <= k <= nSamples - 1000)%Z /\ (1 <= nSamples - 1000)%Z /\
    expPay = 100 * IZR k / IZR (nSamples - 1000).
Proof.
  intros Hok. rewrite meanMC_CLT_run.
  set (nmu := nmu_of _ _ _).
  set (s1 := snd (DigitalOption.Y rand 1000%Z s0)).
  destruct (Y_values rand nmu s1 Hok) as [Hlen Hval].
  destruct (Rsum_two_valued 100 _ Hval) as [k [Hk Hsum]].
  assert (Hnmu : (1 <= nmu)%Z) by apply nmu_of_bounds.
  eexists. eexists. eexists. exists (Z.of_nat k).
  split; [reflexivity |].
  replace (1000 + nmu - 1000)%Z with nmu by lia.
  split; [lia |]. split; [assumption |].
  unfold np_mean. rewrite Hsum, Hlen, <- INR_IZR_INZ.
  rewrite INR_IZR_INZ with (n := Z.to_nat nmu), Z2Nat.id by lia.
  reflexivity.
Qed.

End Digital.

(** ** The European call example *)

Lemma np_mean_nonneg (l : list R) :
  l <> [] -> Forall (fun y => 0 <= y) l -> 0 <= np_mean l.
Proof.
  intros Hne Hall. unfold np_mean.
  assert (Hs : 0 <= Rsum l).
  { induction Hall as [| y l Hy _ IH]; [cbn; lra |].
    change (Rsum (y :: l)) with (y + Rsum l).
    destruct l as [| y' l]; [cbn; lra |].
    assert (0 <= Rsum (y' :: l)) by (apply IH; discriminate). lra. }
  apply Rmult_le_pos; [assumption |].
  apply Rlt_le, Rinv_0_lt_compat, lt_0_INR.
  destruct l; [contradiction | cbn; lia].
Qed.

Lemma payoff_at_nonneg (S : R) : 0 <= EuroCall.payoff_at S.
Proof.
  unfold EuroCall.payoff_at.
  apply Rmult_le_pos; [apply Rmax_r | apply Rlt_le, exp_pos].
Qed.

Lemma payoff_at_pos (S : R) : 0 < EuroCall.payoff_at S <-> EuroCall.K < S.
Proof.
  unfold EuroCall.payoff_at.
  pose proof (exp_pos (- EuroCall.interest * EuroCall.timeFinal)) as He.
  unfold Rmax. destruct (Rle_dec (S - EuroCall.K) 0) as [Hle | Hgt].
  - rewrite Rmult_0_l. split; intros; lra.
  - split; [intros; lra |]. intros _. apply Rmult_lt_0_compat; lra.
Qed.

(** X20: the discounted payoff of a path is never negative, and it is
    positive exactly when the standard normal number of the path exceeds
    [- d2], where [d2] is the argument of the second [norm.cdf] in
    [trueEuroCallPrice]. *)
Theorem euroCallPayoff_pays_iff (z : R) :
  0 <= EuroCall.payoff_at (EuroCall.price_at z) /\
  (0 < EuroCall.payoff_at (EuroCall.price_at z) <-> - EuroCall.d2 < z).
Proof.
  split; [apply payoff_at_nonneg |].
  rewrite payoff_at_pos.
  unfold EuroCall.price_at, EuroCall.d2.
  set (a := (EuroCall.interest - EuroCall.volatility ^ 2 / 2)
            * EuroCall.timeFinal).
  set (b := EuroCall.volatility * sqrt EuroCall.timeFinal).
  assert (Hb : 0 < b).
  { unfold b. apply Rmult_lt_0_compat.
    - unfold EuroCall.volatility. lra.
    - apply sqrt_lt_R0. unfold EuroCall.timeFinal. lra. }
  assert (HS : 0 < EuroCall.S0) by (unfold EuroCall.S0; lra).
  assert (HK : 0 < EuroCall.K) by (unfold EuroCall.K; lra).
  assert (Hq : 0 < EuroCall.K / EuroCall.S0)
    by (apply Rdiv_lt_0_compat; assumption).
  assert (Hln : ln (EuroCall.S0 / EuroCall.K)
                = - ln (EuroCall.K / EuroCall.S0)).
  { rewrite <- ln_Rinv by assumption. f_equal. field. lra. }
  rewrite Hln.
  assert (Hz : - ((- ln (EuroCall.K / EuroCall.S0) + a) / b) < z
               <-> ln (EuroCall.K / EuroCall.S0) < a + b * z).
  { split; intros Hlt.
    - apply Rmult_lt_compat_l with (r := b) in Hlt; [| assumption].
      replace (b * - ((- ln (EuroCall.K / EuroCall.S0) + a) / b))
        with (ln (EuroCall.K / EuroCall.S0) - a) in Hlt by (field; lra).
      lra.
    - apply Rmult_lt_reg_l with b; [assumption |].
      replace (b * - ((- ln (EuroCall.K / EuroCall.S0) + a) / b))
        with (ln (EuroCall.K / EuroCall.S0) - a) by (field; lra).
      lra. }
  rewrite Hz.
  assert (Hk : EuroCall.K < EuroCall.S0 * exp (a + b * z)
               <-> EuroCall.K / EuroCall.S0 < exp (a + b * z)).
  { split; intros Hlt.
    - apply Rmult_lt_reg_l with EuroCall.S0; [assumption |].
      replace (EuroCall.S0 * (EuroCall.K / EuroCall.S0)) with EuroCall.K
        by (field; lra). assumption.
    - apply Rmult_lt_compat_l with (r := EuroCall.S0) in Hlt; [| assumption].
      replace (EuroCall.S0 * (EuroCall.K / EuroCall.S0)) with EuroCall.K
        in Hlt by (field; lra). assumption. }
  rewrite Hk. rewrite <- (exp_ln (EuroCall.K / EuroCall.S0)) at 1
    by assumption.
  split; [apply exp_lt_inv | apply exp_increasing].
Qed.

Section Call.

Context `{SciPy} {rng : Type}.

Lemma length_concat_columns (g : R -> R) (M : list (list R)) :
  Forall (fun row => length row = 1%nat) M ->
  length (concat (map (map g) M)) = length M.
Proof.
  induction 1 as [| row M Hrow _ IH]; [reflexivity |].
  cbn [map concat length]. rewrite length_app, length_map, Hrow, IH.
  reflexivity.
Qed.

Lemma euroCallPayoff_values (randn : normal_source rng) (n : Z) (s : rng) :
  normal_ok randn ->
  length (fst (EuroCall.euroCallPayoff randn n s)) = Z.to_nat n /\
  Forall (fun y => 0 <= y) (fst (EuroCall.euroCallPayoff randn n s)).
Proof.
  intros Hok. destruct (Hok n 1%Z s) as [Hlen Hrows].
  unfold EuroCall.euroCallPayoff, EuroCall.SVal.
  destruct (randn n 1%Z s) as [Zs s']. cbn [fst] in *.
  split.
  - rewrite length_concat_columns; [now rewrite length_map |].
    apply Forall_map. eapply Forall_impl; [| exact Hrows].
    intros row Hrow. cbv beta in *. now rewrite length_map.
  - apply Forall_concat, Forall_map, Forall_map, Forall_forall.
    intros row _. apply Forall_map, Forall_forall.
    intros S _. apply payoff_at_nonneg.
Qed.

(** X21: the estimated price of the call is never negative, and the
    count is at least 1001. *)
Theorem meanMC_CLT_euroCallPayoff (randn : normal_source rng)
    (absTol relTol alpha : R) (s0 : rng) :
  normal_ok randn ->
  exists euroCallPrice nSample s2,
    meanMC_CLT (EuroCall.euroCallPayoff randn) absTol relTol alpha s0
    = Ok ((euroCallPrice, nSample), s2) /\
    0 <= euroCallPrice /\ (1001 <= nSample)%Z.
Proof.
  intros Hok. rewrite meanMC_CLT_run.
  eexists. eexists. eexists. split; [reflexivity |].
  split.
  - apply np_mean_nonneg; [| now apply euroCallPayoff_values].
    apply second_draw_nonempty.
    intros n s. now apply euroCallPayoff_values.
  - match goal with |- (_ <= 1000 + nmu_of ?z ?s ?t)%Z =>
      pose proof (nmu_of_bounds z s t) end. lia.
Qed.

End Call.

(** ** The order of the sample *)

Lemma StronglySorted_unique (l1 : list R) : forall l2 : list R,
  StronglySorted Rle l1 -> StronglySorted Rle l2 -> Permutation l1 l2 ->
  l1 = l2.
Proof.
  induction l1 as [| a l1 IH]; intros l2 H1 H2 Hp.
  - apply Permutation_nil in Hp. now subst.
  - destruct l2 as [| b l2].
    + apply Permutation_sym, Permutation_nil in Hp. discriminate.
    + inversion H1 as [| ? ? Hs1 Ha]; subst.
      inversion H2 as [| ? ? Hs2 Hb]; subst.
      rewrite Forall_forall in Ha, Hb.
      assert (Hab : a = b).
      { assert (Hin_a : In a (b :: l2))
          by (apply (Permutation_in _ Hp); now left).
        assert (Hin_b : In b (a :: l1))
          by (apply (Permutation_in _ (Permutation_sym Hp)); now left).
        destruct Hin_a as [E | Hin_a]; [now symmetry |].
        destruct Hin_b as [E | Hin_b]; [assumption |].
        apply Rle_antisym; [now apply Ha | now apply Hb]. }
      subst b. f_equal. apply IH; trivial.
      now apply Permutation_cons_inv with a.
Qed.

Lemma sorted_permutation (X X' : list R) :
  Permutation X X' -> sorted X = sorted X'.
Proof.
  intros Hp. apply StronglySorted_unique.
  - apply Sorted_StronglySorted; [intros x y z; apply Rle_trans |].
    apply sorted_sorted.
  - apply Sorted_StronglySorted; [intros x y z; apply Rle_trans |].
    apply sorted_sorted.
  - rewrite (sorted_perm X), (sorted_perm X'). exact Hp.
Qed.

(** X22: for a sample of real numbers (no [nan] among them) the result
    depends on the sample only through its values, not through their
    order. *)
Theorem quantileCI_permutation
    (quant : R) (X X' : list R) (e : R * R) (alpha : R) :
  Permutation X X' ->
  quantileCI quant X e alpha = quantileCI quant X' e alpha.
Proof.
  intros Hp. unfold quantileCI.
  rewrite !Xorder_of_eq, (sorted_permutation X X' Hp),
    (Permutation_length Hp).
  reflexivity.
Qed.

(** X23: for a valid level and quantile, a call that returns gives as its
    lower end a value of the sample, and as its upper end a value of the
    sample or the upper extreme, read at a later position of the ordered
    array: the lower extreme is never returned as such. *)
Theorem quantileCI_ends_from_sample
    (quant : R) (X : list R) (e : R * R) (alpha : R) (lo hi : R) :
  0 < quant < 1 -> 0 < alpha < 1 ->
  (Z.of_nat (length X) + 2 <= INT64_MAX)%Z ->
  quantileCI quant X e alpha = Ok (lo, hi) ->
  In lo X /\ (In hi X \/ hi = snd e).
Proof.
  intros Hq Ha Hsize Hret.
  destruct (quantileCI_positions quant X e alpha lo hi Hq Ha Hsize Hret)
    as [i [j [Hij [Hj [-> ->]]]]].
  rewrite Xorder_of_eq.
  pose proof (sorted_length X) as Hlen.
  destruct i as [| i]; [lia |]. destruct j as [| j]; [lia |].
  cbn [nth]. split.
  - apply (Permutation_in _ (sorted_perm X)).
    rewrite app_nth1 by lia. apply nth_In. lia.
  - destruct (Nat.eq_dec j (length X)) as [E | NE].
    + right. rewrite app_nth2 by lia.
      rewrite Hlen, E, Nat.sub_diag. reflexivity.
    + left. apply (Permutation_in _ (sorted_perm X)).
      rewrite app_nth1 by lia. apply nth_In. lia.
Qed.

(** ** The level and the width of the interval *)

(** The quantiles behind the two positions that a returning call
    reads. *)
Lemma quantileCI_read
    (quant : R) (X : list R) (e : R * R) (alpha : R) (lo hi : R) :
  0 < quant < 1 -> 0 < alpha < 1 ->
  (Z.of_nat (length X) + 2 <= INT64_MAX)%Z ->
  quantileCI quant X e alpha = Ok (lo, hi) ->
  exists kl ku,
    is_binom_quantile (alpha / 2) (length X) quant kl /\
    is_binom_quantile (1 - alpha / 2) (length X) quant ku /\
    (2 + ku <= length X + 1)%nat /\
    lo = nth (1 + kl) (Xorder_of X e) 0 /\
    hi = nth (2 + ku) (Xorder_of X e) 0.
Proof.
  intros Hq Ha Hsize Hret.
  destruct (quantileCI_run quant X e alpha Hq Ha Hsize)
    as [kl [ku [Hkl [Hku Hrun]]]].
  rewrite Hrun in Hret.
  pose proof (Xorder_of_length X e) as Hlen.
  exists kl, ku. split; [assumption |]. split; [assumption |].
  destruct (le_lt_dec (2 + ku) (length X + 1)) as [Hin | Hout].
  - replace (2 + Z.of_nat ku)%Z with (Z.of_nat (2 + ku)) in Hret by lia.
    rewrite getitem_inside in Hret by lia.
    cbn [bind] in Hret. injection Hret as <- <-. auto.
  - rewrite getitem_past_end in Hret by lia. discriminate.
Qed.

(** X29: with extremes that bracket the sample, the interval at a larger
    [alpha] (a lower confidence level) lies inside the interval at a
    smaller one, whenever both calls return. *)
Theorem quantileCI_alpha_nested
    (quant : R) (X : list R) (e : R * R) (alpha alpha' : R)
    (lo hi lo' hi' : R) :
  0 < quant < 1 -> 0 < alpha -> alpha <= alpha' -> alpha' < 1 ->
  (Z.of_nat (length X) + 2 <= INT64_MAX)%Z ->
  fst e <= snd e ->
  (forall x, In x X -> fst e <= x <= snd e) ->
  quantileCI quant X e alpha = Ok (lo, hi) ->
  quantileCI quant X e alpha' = Ok (lo', hi') ->
  lo <= lo' /\ hi' <= hi.
Proof.
  intros Hq Ha Haa Ha' Hsize He Hb Hret Hret'.
  destruct (quantileCI_read quant X e alpha lo hi Hq ltac:(lra) Hsize Hret)
    as [kl [ku [Hkl [Hku [Hin [-> ->]]]]]].
  destruct (quantileCI_read quant X e alpha' lo' hi' Hq ltac:(lra) Hsize
              Hret') as [kl' [ku' [Hkl' [Hku' [Hin' [-> ->]]]]]].
  pose proof (Xorder_of_sorted X e He Hb) as Hs.
  pose proof (Xorder_of_length X e) as Hlen.
  assert (H1 : (kl <= kl')%nat)
    by (apply (is_binom_quantile_mono (alpha / 2) (alpha' / 2)
                 (length X) quant); [lra | assumption | assumption]).
  assert (H2 : (ku' <= ku)%nat)
    by (apply (is_binom_quantile_mono (1 - alpha' / 2) (1 - alpha / 2)
                 (length X) quant); [lra | assumption | assumption]).
  assert (H3 : (kl' <= ku')%nat)
    by (apply (is_binom_quantile_mono (alpha' / 2) (1 - alpha' / 2)
                 (length X) quant); [lra | assumption | assumption]).
  split; apply StronglySorted_nth; trivial; lia.
Qed.

(** * The reference data *)


Lemma norm_ppf_table_025 : norm_ppf_table (1 / 20 / 2) = - (1959964 / 1000000).
Proof.
  unfold norm_ppf_table.
  destruct (Req_dec_T (1 / 20 / 2) (39 / 40)); [lra |].
  destruct (Req_dec_T (1 / 20 / 2) (1 / 40)); [reflexivity | lra].
Qed.

Lemma fsolve_ideal_needs_a_slope : @fsolve_needs_a_slope reference_scipy.
Proof.
  intros f x0 Hnan.
  change (@fsolve reference_scipy f x0) with (fsolve_ideal f x0).
  unfold fsolve_ideal.
  destruct (excluded_middle_informative _) as [_ | N]; [reflexivity |].
  exfalso. apply N. now left.
Qed.

Lemma fsolve_ideal_descends : @fsolve_descends reference_scipy.
Proof.
  intros f x0.
  change (@fsolve reference_scipy f x0) with (fsolve_ideal f x0).
  unfold fsolve_ideal.
  destruct (excluded_middle_informative _) as [_ | N]; [now left |].
  right.
  assert (Hex : exists p, 0 < p < 1 /\ f p = Fin 0).
  { destruct (classic (exists p, 0 < p < 1 /\ f p = Fin 0)) as [E | E];
      [exact E |]. exfalso. apply N. right. now right. }
  destruct (f x0) as [y0 | | |] eqn:E0;
    try (exfalso; apply N; right; left; intros y Hy; discriminate).
  exists y0, 0. split; [reflexivity |]. split.
  - apply (epsilon_spec (inhabits x0)
             (fun p => 0 < p < 1 /\ f p = Fin 0) Hex).
  - rewrite Rabs_R0. apply Rabs_pos_lt. intros Ey. apply N. right. left.
    intros y Hy. injection Hy as <-. exact Ey.
Qed.







Lemma constant_rows_ok (u : R) : 0 <= u < 1 -> uniform_ok (constant_rows u).
Proof.
  intros Hu n d s. unfold constant_rows. cbn [fst]. split.
  - apply repeat_length.
  - apply Forall_forall. intros row Hrow. apply repeat_spec in Hrow.
    subst row. split; [apply repeat_length |].
    apply Forall_forall. intros x Hx. apply repeat_spec in Hx. now subst x.
Qed.

Lemma constant_rows_shape (u : R) : normal_ok (constant_rows u).
Proof.
  intros n d s. unfold constant_rows. cbn [fst]. split.
  - apply repeat_length.
  - apply Forall_forall. intros row Hrow. apply repeat_spec in Hrow.
    subst row. apply repeat_length.
Qed.



Lemma pow_ratio (a b : Z) (n : nat) :
  (0 < b)%Z ->
  (IZR a / IZR b) ^ n = IZR (a ^ Z.of_nat n) / IZR (b ^ Z.of_nat n).
Proof.
  intros Hb. unfold Rdiv. rewrite Rpow_mult_distr, pow_inv, !pow_IZR.
  reflexivity.
Qed.

Lemma pow_49_50_300 : (1 - 1 / 50) ^ 300 <= 1 / 400.
Proof.
  replace (1 - 1 / 50) with (49 / 50) by lra.
  rewrite pow_ratio by lia.
  assert (Hd : 0 < IZR (50 ^ Z.of_nat 300)) by (apply IZR_lt; lia).
  apply Rmult_le_reg_r with (IZR (50 ^ Z.of_nat 300)); [assumption |].
  unfold Rdiv at 1. rewrite Rmult_assoc, Rinv_l by lra. rewrite Rmult_1_r.
  apply Rmult_le_reg_l with 400; [lra |].
  replace (400 * (1 / 400 * IZR (50 ^ Z.of_nat 300)))
    with (IZR (50 ^ Z.of_nat 300)) by field.
  rewrite <- mult_IZR. apply IZR_le.
  apply Z.leb_le. vm_compute. reflexivity.
Qed.

Lemma pow_49_50_10 : 1 / 2 < (1 - 1 / 50) ^ 10.
Proof.
  replace (1 - 1 / 50) with (49 / 50) by lra.
  rewrite pow_ratio by lia.
  assert (Hd : 0 < IZR (50 ^ Z.of_nat 10)) by (apply IZR_lt; lia).
  apply Rmult_lt_reg_r with (IZR (50 ^ Z.of_nat 10)); [assumption |].
  unfold Rdiv at 2. rewrite Rmult_assoc, Rinv_l by lra. rewrite Rmult_1_r.
  apply Rmult_lt_reg_l with 2; [lra |].
  replace (2 * (1 / 2 * IZR (50 ^ Z.of_nat 10)))
    with (IZR (50 ^ Z.of_nat 10)) by field.
  rewrite <- mult_IZR. apply IZR_lt.
  apply Z.ltb_lt. vm_compute. reflexivity.
Qed.

Lemma float_margin_small : float_margin <= 1 / 1000.
Proof.
  unfold float_margin.
  replace (2 ^ 20) with 1048576 by (simpl; lra). lra.
Qed.

Lemma tiny_below_half : / 2 ^ 500 <= 1 / 2.
Proof.
  replace (1 / 2) with (/ 2 ^ 1) by (simpl; lra).
  apply Rinv_le_contravar; [apply pow_lt; lra |].
  apply Rle_pow; [lra | lia].
Qed.

(** The values of the distribution function for two trials of
    probability one half are 1/4, 3/4 and 1. *)
Lemma resolved_level_two_halves (q : R) :
  1 / 1000 <= Rabs (1 / 4 - q) -> 1 / 1000 <= Rabs (3 / 4 - q) ->
  1 / 1000 <= Rabs (1 - q) ->
  resolved_level q 2 (1 / 2).
Proof.
  intros H0 H1 H2 i Hi. pose proof float_margin_small as Hm.
  destruct i as [| [| [| i]]]; [| | | lia].
  - replace (cdfN 2 0 (1 / 2)) with (1 / 4)
      by (unfold cdfN, binom_pmf; simpl; lra). lra.
  - replace (cdfN 2 1 (1 / 2)) with (3 / 4)
      by (unfold cdfN, binom_pmf; simpl; lra). lra.
  - replace (cdfN 2 2 (1 / 2)) with 1
      by (unfold cdfN, binom_pmf; simpl; lra). lra.
Qed.

(** * The claims at concrete inputs *)



(** C4, counterexample: a generator that always returns 5, both
    tolerances zero.  No error: the call returns the estimate 5 and the
    count 1001. *)
Lemma meanMC_CLT_zero_tolerance_returns :
  @meanMC_CLT reference_scipy unit (constant_sampler 5) 0 0 (1 / 100) tt
  = Ok ((5, 1001%Z), tt).
Proof.
  rewrite meanMC_CLT_run. cbv zeta.
  replace (Rmax 0 0) with 0
    by (unfold Rmax; destruct (Rle_dec 0 0); reflexivity).
  rewrite nmu_of_zero_tol.
  unfold constant_sampler. cbn [fst snd].
  change (Z.to_nat 1) with 1%nat. unfold np_mean. simpl.
  do 3 f_equal. field.
Qed.


(** C3, the failing input: 10 successes in 10 trials at the level 0.05.
    The call returns the lower bound 1; the root of the equation lies in
    (0,1). *)
Lemma binomialCI_lower_bound_misses_root_witness :
  (exists pup cltci,
      @binomialCI reference_scipy 10 10 (1 / 20) = Ok ((1, pup), cltci)) /\
  exists p, 0 < p < 1 /\ binom_cdf (10 - 1) 10 p = 1 - 1 / 20 / 2.
Proof.
  destruct (@binomialCI_lower_bound_misses_root reference_scipy 10 (1 / 20)
              fsolve_ideal_needs_a_slope)
    as [Hrun [_ [p [Hp [Hroot _]]]]]; [lia | lra |].
  split; [exact Hrun |]. exists p. split; assumption.
Defined.

(** C6, witness: the level 0.05, whose normal quantile is about -1.96. *)
Lemma binomialCI_clt_interval_witness :
  (0 < 1 / 20 < 1) /\
  (exists exactci,
      let half :=
        - @norm_ppf reference_scipy (1 / 20 / 2)
        * sqrt (3 / 10 * (1 - 3 / 10) / 10) in
      @binomialCI reference_scipy 10 3 (1 / 20)
      = Ok (exactci, (3 / 10 - half, 3 / 10 + half))) /\
  (exists ntot nsuc exactci lo hi,
      (0 < ntot)%Z /\ (0 <= nsuc <= ntot)%Z /\
      @binomialCI reference_scipy ntot nsuc (1 / 20) = Ok (exactci, (lo, hi)) /\
      lo < 0).
Proof.
  assert (Ha : 0 < 1 / 20 < 1) by lra.
  split; [exact Ha |].
  destruct (@binomialCI_clt_interval reference_scipy (1 / 20) Ha)
    as [Hform Hout].
  split.
  - apply (Hform 10%Z 3%Z); lia.
  - apply Hout.
    change (@norm_ppf reference_scipy) with norm_ppf_table.
    rewrite norm_ppf_table_025. lra.
Defined.

(** C10, the failing input: 10 successes in 10 trials at the level
    0.05. *)
Lemma binomialCI_extreme_counts_witness :
  (exists pup,
      @binomialCI reference_scipy 10 0 (1 / 20) = Ok ((0, pup), (0, 0))) /\
  @binomialCI reference_scipy 10 10 (1 / 20) = Ok ((1, 1), (1, 1)).
Proof.
  apply (@binomialCI_extreme_counts reference_scipy 10 (1 / 20)
           fsolve_ideal_needs_a_slope). lia.
Defined.

(** C2, counterexample: one observation, the median, the level 0.05.  The
    upper position is 3, one past the end of the array of length 3; it is
    not clamped to 2: the call raises. *)
Lemma quantileCI_does_not_clamp :
  quantileCI (1 / 2) [1] (0, 2) (1 / 20) = Raise IndexError.
Proof.
  apply quantileCI_upper_overrun; try lra.
  - unfold INT64_MAX. simpl. lia.
  - simpl. lra.
Qed.

Lemma sorted_2_1 : sorted [2; 1] = [1; 2].
Proof.
  unfold sorted. simpl. destruct (Rle_dec 2 1); [lra | reflexivity].
Qed.

(** C2, witness: two observations, the median, the level 0.8: the
    positions are 2 and 3, and the call returns the larger observation
    and the upper extreme. *)
Lemma quantileCI_order_statistics_witness :
  (0 < 1 / 2 < 1) /\ (0 < 4 / 5 < 1) /\
  resolved_level (4 / 5 / 2) 2 (1 / 2) /\
  resolved_level (1 - 4 / 5 / 2) 2 (1 / 2) /\
  quantileCI (1 / 2) [2; 1] (0, 3) (4 / 5) = Ok (2, 3).
Proof.
  assert (Hh : 0 < 1 / 2 < 1) by lra.
  assert (Ha : 0 < 4 / 5 < 1) by lra.
  assert (Hlow : resolved_level (4 / 5 / 2) 2 (1 / 2)).
  { apply resolved_level_two_halves.
    - rewrite Rabs_left; lra.
    - rewrite Rabs_pos_eq; lra.
    - rewrite Rabs_pos_eq; lra. }
  assert (Hupp : resolved_level (1 - 4 / 5 / 2) 2 (1 / 2)).
  { apply resolved_level_two_halves.
    - rewrite Rabs_left; lra.
    - rewrite Rabs_pos_eq; lra.
    - rewrite Rabs_pos_eq; lra. }
  split; [exact Hh |]. split; [exact Ha |].
  split; [exact Hlow |]. split; [exact Hupp |].
  destruct (quantileCI_order_statistics (1 / 2) [2; 1] (0, 3) (4 / 5) Hh Ha)
    as [Xorder [kl [ku [HX [_ [_ [_ [Hkl [Hku Hrun]]]]]]]]];
    [unfold INT64_MAX; simpl; lia | exact Hlow | exact Hupp |].
  assert (Ekl : kl = 1%nat).
  { apply (is_binom_quantile_unique (4 / 5 / 2) 2 (1 / 2)); [exact Hkl |].
    split; [lia |]. split.
    - unfold cdfN, binom_pmf. simpl. lra.
    - intros i Hi. assert (i = 0%nat) as -> by lia.
      unfold cdfN, binom_pmf. simpl. lra. }
  assert (Eku : ku = 1%nat).
  { apply (is_binom_quantile_unique (1 - 4 / 5 / 2) 2 (1 / 2)); [exact Hku |].
    split; [lia |]. split.
    - unfold cdfN, binom_pmf. simpl. lra.
    - intros i Hi. assert (i = 0%nat) as -> by lia.
      unfold cdfN, binom_pmf. simpl. lra. }
  subst kl ku. rewrite Hrun by (simpl; lia).
  rewrite HX, sorted_2_1. reflexivity.
Defined.

(** C9, the failing input: three observations between the extremes 0 and
    4, the median, the level 0.05.  The upper position is 5, one past the
    end of the array of length 5, and the call raises instead of
    returning an interval. *)
Theorem quantileCI_small_sample_raises :
  quantileCI (1 / 2) [3; 1; 2] (0, 4) (1 / 20) = Raise IndexError.
Proof.
  apply quantileCI_upper_overrun; try lra.
  - unfold INT64_MAX. simpl. lia.
  - simpl. lra.
Qed.

(** C5, counterexample: the level 2 is accepted by both routines.
    [quantileCI] returns the upper extreme 2 followed by the observation
    1, and [binomialCI] returns two intervals. *)
Lemma invalid_level_is_accepted :
  quantileCI (1 / 2) [1] (0, 2) 2 = Ok (2, 1) /\
  exists exactci cltci,
    @binomialCI reference_scipy 10 5 2 = Ok (exactci, cltci).
Proof.
  split.
  - rewrite quantileCI_alpha_2.
    + reflexivity.
    + lra.
    + unfold INT64_MAX. simpl. lia.
  - rewrite binomialCI_run by lia. eexists. eexists. reflexivity.
Qed.

(** X1, witness: two observations at the level 0.8, one at the level
    0.1. *)
Lemma quantileCI_returns_iff_witness :
  (exists lo hi, quantileCI (1 / 2) [2; 1] (0, 3) (4 / 5) = Ok (lo, hi)) /\
  quantileCI (1 / 2) [1] (0, 2) (1 / 10) = Raise IndexError.
Proof.
  assert (Hh : 0 < 1 / 2 < 1) by lra.
  pose proof float_margin_small as Hm.
  split.
  - apply (quantileCI_returns_iff (1 / 2) [2; 1] (0, 3) (4 / 5) Hh).
    + lra.
    + unfold INT64_MAX. simpl. lia.
    + simpl. lra.
  - apply (quantileCI_returns_iff (1 / 2) [1] (0, 2) (1 / 10) Hh).
    + lra.
    + unfold INT64_MAX. simpl. lia.
    + simpl. lra.
Defined.

(** X2, witness: two observations between the extremes 0 and 3. *)
Lemma quantileCI_within_extremes_witness :
  exists lo hi,
    quantileCI (1 / 2) [2; 1] (0, 3) (1 / 2) = Ok (lo, hi) /\
    0 <= lo /\ lo <= hi /\ hi <= 3.
Proof.
  assert (Hh : 0 < 1 / 2 < 1) by lra.
  assert (Hsize : (Z.of_nat (length [2; 1]) + 2 <= INT64_MAX)%Z)
    by (unfold INT64_MAX; simpl; lia).
  destruct (quantileCI_returns (1 / 2) [2; 1] (0, 3) (1 / 2) Hh Hh Hsize)
    as [lo [hi Hret]]; [simpl; lra |].
  exists lo, hi. split; [exact Hret |].
  apply (quantileCI_within_extremes (1 / 2) [2; 1] (0, 3) (1 / 2) lo hi
           Hh Hh Hsize); [simpl; lra | | exact Hret].
  intros x [<- | [<- | []]]; simpl; lra.
Defined.



(** * The further properties at concrete inputs *)




(** X8, witness: four legs that each take half of their longest time. *)
Lemma Ttot_range_witness :
  sampler_ok (Ttot (constant_rows (1 / 2))) /\
  forall n s t, In t (fst (Ttot (constant_rows (1 / 2)) n s)) -> 16 <= t <= 42.
Proof.
  apply (Ttot_range (constant_rows (1 / 2))).
  apply constant_rows_ok. lra.
Defined.

(** X9, witness: the same source. *)
Lemma meanMC_CLT_Ttot_witness :
  exists muhat nSamples s2,
    @meanMC_CLT reference_scipy unit (Ttot (constant_rows (1 / 2)))
      (1 / 100) 0 (1 / 100) tt
    = Ok ((muhat, nSamples), s2) /\
    16 <= muhat <= 42 /\ (1001 <= nSamples)%Z.
Proof.
  apply (@meanMC_CLT_Ttot reference_scipy unit (constant_rows (1 / 2))).
  apply constant_rows_ok. lra.
Defined.

(** X10, witness: ten trips of 29 minutes each, against the late time
    10: every trip is late. *)
Lemma late_probability_CI_brackets_witness :
  exists lo hi cltci Ttotval s',
    @late_probability_CI reference_scipy unit (constant_rows (1 / 2))
      10 10 (1 / 100) tt
    = (Ok ((lo, hi), cltci), (Ttotval, s')) /\
    Z.of_nat (length Ttotval) = 10%Z /\
    0 <= lo <= IZR (count_above Ttotval 10) / 10 /\
    IZR (count_above Ttotval 10) / 10 <= hi <= 1 /\
    lo = 1 /\ hi = 1 /\ cltci = (1, 1).
Proof.
  destruct (@late_probability_CI_brackets reference_scipy unit
              (constant_rows (1 / 2)) 10 10 (1 / 100) tt
              fsolve_ideal_descends fsolve_ideal_needs_a_slope)
    as [lo [hi [clt [T [s' [Hrun [Hlen [Hlo [Hhi [_ Hall]]]]]]]]]].
  - apply constant_rows_ok. lra.
  - lia.
  - lra.
  - exists lo, hi, clt, T, s'.
    split; [exact Hrun |]. split; [exact Hlen |].
    split; [exact Hlo |]. split; [exact Hhi |].
    apply Hall. lra.
Defined.

(** X11, witness: samples of 300 and of 10 trips, for the 98% quantile
    at the level 0.01. *)
Lemma late_quantile_CI_range_witness :
  (exists lo hi,
     late_quantile_CI (1 / 50) (fst (Ttot (constant_rows (1 / 2)) 300%Z tt))
                      (1 / 100) = Ok (lo, hi) /\
     16 <= lo /\ lo <= hi /\ hi <= 42) /\
  late_quantile_CI (1 / 50) (fst (Ttot (constant_rows (1 / 2)) 10%Z tt))
                   (1 / 100) = Raise IndexError.
Proof.
  assert (Hok : uniform_ok (constant_rows (1 / 2)))
    by (apply constant_rows_ok; lra).
  assert (Hp : 0 < 1 / 50 < 1) by lra.
  assert (Ha : 0 < 1 / 100 < 1) by lra.
  pose proof float_margin_small as Hm.
  split.
  - apply (late_quantile_CI_range (constant_rows (1 / 2)) 300%Z tt
             (1 / 50) (1 / 100) Hok); try (unfold INT64_MAX; lia); trivial.
    pose proof pow_49_50_300 as Hpow.
    change (Z.to_nat 300) with 300%nat. lra.
  - apply (late_quantile_CI_range (constant_rows (1 / 2)) 10%Z tt
             (1 / 50) (1 / 100) Hok); try (unfold INT64_MAX; lia); trivial.
    pose proof pow_49_50_10 as Hpow.
    change (Z.to_nat 10) with 10%nat. lra.
Defined.

(** X12, witness: three candidates, two trials of three voters who all
    vote for candidate 0. *)
Lemma TwoBestWin_decides_witness :
  exists Yes,
    TwoBestWin (constant_rows (1 / 8)) 2 3 [1 / 4; 1 / 2; 1] tt
    = Ok (Yes, snd (draws (constant_rows (1 / 8)) 3 2 tt)) /\
    length Yes = 2%nat.
Proof.
  destruct (TwoBestWin_decides (constant_rows (1 / 8)) 2 3
              [1 / 4; 1 / 2; 1] tt) as [Yes [Hrun [Hlen _]]].
  - cbn [length]. lia.
  - exists Yes. split; assumption.
Defined.

(** X13, witness: two candidates, three trials. *)
Lemma TwoBestWin_two_candidates_witness :
  TwoBestWin (constant_rows (1 / 8)) 3 5 [1 / 2; 1] tt
  = Ok (repeat 1 3, snd (draws (constant_rows (1 / 8)) 5 3 tt)).
Proof.
  apply (TwoBestWin_two_candidates (constant_rows (1 / 8)) 3 5 [1 / 2; 1] tt).
  reflexivity.
Defined.

(** X14, witness: one candidate, one trial. *)
Lemma TwoBestWin_too_few_candidates_witness :
  TwoBestWin (constant_rows (1 / 8)) 1 5 [1] tt = Raise IndexError.
Proof.
  apply (TwoBestWin_too_few_candidates (constant_rows (1 / 8)) 1 5 [1] tt).
  - cbn [length]. lia.
  - lia.
Defined.

(** X15, witness: three candidates, two trials. *)
Lemma TwoBestWin_success_count_witness :
  exists Yes s' (k : Z),
    TwoBestWin (constant_rows (1 / 8)) 2 3 [1 / 4; 1 / 2; 1] tt
    = Ok (Yes, s') /\
    Rsum Yes = IZR k /\ (0 <= k <= 2)%Z.
Proof.
  apply (TwoBestWin_success_count (constant_rows (1 / 8)) 2 3
           [1 / 4; 1 / 2; 1] tt).
  cbn [length]. lia.
Defined.

(** X16, witness: two voters and the distribution function [0.5, 1]. *)
Lemma count_votes_total_witness :
  Rsum (count_votes (votes_of [[1 / 8]; [3 / 4]] [1 / 2; 1]) 2 [0; 0])
  = INR 2.
Proof.
  destruct (count_votes_total [1 / 2; 1] [[1 / 8]; [3 / 4]] [0; 0])
    as [_ Hall]; [reflexivity |].
  apply Hall.
  - exists 1. split; [cbn; auto | lra].
  - repeat constructor; cbn; lra.
Defined.

(** X17, witness: the row [0.81, 0.81]. *)
Lemma YIS_row_range_witness :
  exists v, DigitalOption.YIS_row [81 / 100; 81 / 100] = Fin v /\
            (v = 0 \/ 25 <= v <= 2500 / 49).
Proof.
  pose proof tiny_below_half as Htiny.
  apply (YIS_row_range (81 / 100) (81 / 100)); lra.
Defined.

(** X18, witness: the row [0, 0.5]. *)
Lemma YIS_row_zero_coordinate_witness :
  DigitalOption.YIS_row [0; 1 / 2] = NaN.
Proof.
  apply (YIS_row_zero_coordinate 0 (1 / 2)); [lra | lra |].
  left. reflexivity.
Defined.

(** X19, witness: a source whose every number is 0.9. *)
Lemma meanMC_CLT_digital_witness :
  exists expPay nSamples s2 (k : Z),
    @meanMC_CLT reference_scipy unit
      (DigitalOption.Y (constant_rows (9 / 10))) (1 / 200) 0 (1 / 100) tt
    = Ok ((expPay, nSamples), s2) /\
    (0 <= k <= nSamples - 1000)%Z /\ (1 <= nSamples - 1000)%Z /\
    expPay = 100 * IZR k / IZR (nSamples - 1000).
Proof.
  apply (@meanMC_CLT_digital reference_scipy unit (constant_rows (9 / 10))).
  apply constant_rows_ok. lra.
Defined.

(** X21, witness: a source whose every number is 0. *)
Lemma meanMC_CLT_euroCallPayoff_witness :
  exists euroCallPrice nSample s2,
    @meanMC_CLT reference_scipy unit
      (EuroCall.euroCallPayoff (constant_rows 0)) (1 / 20) 0 (1 / 100) tt
    = Ok ((euroCallPrice, nSample), s2) /\
    0 <= euroCallPrice /\ (1001 <= nSample)%Z.
Proof.
  apply (@meanMC_CLT_euroCallPayoff reference_scipy unit (constant_rows 0)).
  apply constant_rows_shape.
Defined.

(** X22, witness: two observations in either order. *)
Lemma quantileCI_permutation_witness :
  quantileCI (1 / 2) [2; 1] (0, 3) (1 / 2)
  = quantileCI (1 / 2) [1; 2] (0, 3) (1 / 2).
Proof.
  apply (quantileCI_permutation (1 / 2) [2; 1] [1; 2] (0, 3) (1 / 2)).
  apply perm_swap.
Defined.

(** X23, witness: two observations between the extremes 0 and 3. *)
Lemma quantileCI_ends_from_sample_witness :
  exists lo hi,
    quantileCI (1 / 2) [2; 1] (0, 3) (1 / 2) = Ok (lo, hi) /\
    In lo [2; 1] /\ (In hi [2; 1] \/ hi = 3).
Proof.
  assert (Hh : 0 < 1 / 2 < 1) by lra.
  assert (Hsize : (Z.of_nat (length [2; 1]) + 2 <= INT64_MAX)%Z)
    by (unfold INT64_MAX; simpl; lia).
  destruct (quantileCI_returns (1 / 2) [2; 1] (0, 3) (1 / 2) Hh Hh Hsize)
    as [lo [hi Hret]]; [simpl; lra |].
  exists lo, hi. split; [exact Hret |].
  exact (quantileCI_ends_from_sample (1 / 2) [2; 1] (0, 3) (1 / 2) lo hi
           Hh Hh Hsize Hret).
Defined.

(** X29, witness: two observations at the levels 0.5 and 0.75. *)
Lemma quantileCI_alpha_nested_witness :
  exists lo hi lo' hi',
    quantileCI (1 / 2) [2; 1] (0, 3) (1 / 2) = Ok (lo, hi) /\
    quantileCI (1 / 2) [2; 1] (0, 3) (3 / 4) = Ok (lo', hi') /\
    lo <= lo' /\ hi' <= hi.
Proof.
  assert (Hh : 0 < 1 / 2 < 1) by lra.
  assert (Hsize : (Z.of_nat (length [2; 1]) + 2 <= INT64_MAX)%Z)
    by (unfold INT64_MAX; simpl; lia).
  destruct (quantileCI_returns (1 / 2) [2; 1] (0, 3) (1 / 2) Hh Hh Hsize)
    as [lo [hi Hret]]; [simpl; lra |].
  destruct (quantileCI_returns (1 / 2) [2; 1] (0, 3) (3 / 4) Hh
              ltac:(lra) Hsize) as [lo' [hi' Hret']]; [simpl; lra |].
  exists lo, hi, lo', hi'. split; [exact Hret |]. split; [exact Hret' |].
  apply (quantileCI_alpha_nested (1 / 2) [2; 1] (0, 3) (1 / 2) (3 / 4)
           lo hi lo' hi' Hh); trivial; try (simpl; lra).
  intros x [<- | [<- | []]]; simpl; lra.
Defined.

(** X30, witness: 3 successes in 10 trials at the level 0.05. *)
Lemma binomialCI_contains_proportion_witness :
  exists lo hi cltci,
    @binomialCI reference_scipy 10 3 (1 / 20) = Ok ((lo, hi), cltci) /\
    0 <= lo /\ lo <= 3 / 10 /\ 3 / 10 <= hi /\ hi <= 1.
Proof.
  destruct (@binomialCI_contains_proportion reference_scipy 10 3 (1 / 20)
              fsolve_ideal_descends)
    as [lo [hi [cltci [Hrun [H0 [Hlo [Hhi [H1 _]]]]]]]]; [lia | lia | lra |].
  exists lo, hi, cltci. repeat split; assumption.
Defined.
